(** * Group-response collection and quorum-gated orchestration

    A shallow embedding of the response collector and confirmation
    resolver of [src/agents/interactive-agent.ts], of the connection
    tracker of [src/agents/calendar-oauth.ts] and of the date-choice
    aggregation of [examples/clean-interactive-planner.ts], with the
    properties the specification states about them. *)

From Stdlib Require Import ZArith NArith String Ascii QArith Qround.
From Stdlib Require SpecFloat.
From stdpp Require Import gmap strings list fin_maps.

Local Open Scope N_scope.

(** ** JavaScript strings

    A JavaScript string is a sequence of UTF-16 code units; [includes],
    [trim], [toLowerCase] and [parseInt] all work on code units. *)

Module JsString.

Abbreviation jsstring := (list N).

(** A literal of the source, written with Basic Latin characters. *)
Definition js (s : string) : jsstring :=
  N_of_ascii <$> list_ascii_of_string s.

(** ECMAScript [WhiteSpace] and [LineTerminator] code points, the ones
    [String.prototype.trim] and [parseInt] strip. *)
Definition isWhiteSpace (c : N) : bool :=
  ((9 <=? c) && (c <=? 13))
  || (c =? 32) || (c =? 160) || (c =? 5760)
  || ((8192 <=? c) && (c <=? 8202))
  || (c =? 8232) || (c =? 8233) || (c =? 8239) || (c =? 8287)
  || (c =? 12288) || (c =? 65279).

Fixpoint trimStart (s : jsstring) : jsstring :=
  match s with
  | c :: rest => if isWhiteSpace c then trimStart rest else s
  | [] => []
  end.

Definition trimEnd (s : jsstring) : jsstring :=
  reverse (trimStart (reverse s)).

(** [String.prototype.trim]. *)
Definition trim (s : jsstring) : jsstring := trimEnd (trimStart s).

(** [String.prototype.toLowerCase] on one code unit.  The agent matches
    the lowered reply against Basic Latin letters and one emoji; the
    case mapping modelled is the Basic Latin one (A-Z to a-z), and every
    other code unit is kept as it is. *)
Definition toLowerCaseUnit (c : N) : N :=
  if (65 <=? c) && (c <=? 90) then c + 32 else c.

Definition toLowerCase (s : jsstring) : jsstring := toLowerCaseUnit <$> s.

Fixpoint startsWith (prefix s : jsstring) : bool :=
  match prefix, s with
  | [], _ => true
  | p :: prefix', c :: s' => (p =? c) && startsWith prefix' s'
  | _ :: _, [] => false
  end.

(** [String.prototype.includes]: the needle occurs at some position. *)
Fixpoint includes (needle s : jsstring) : bool :=
  startsWith needle s ||
  match s with
  | [] => false
  | _ :: s' => includes needle s'
  end.

(** [a === b] on strings. *)
Definition strictEq (a b : jsstring) : bool := bool_decide (a = b).

(** U+1F44D THUMBS UP SIGN as its surrogate pair. *)
Definition thumbsUp : jsstring := [55357; 56397].

End JsString.

Import JsString.

(** ** JavaScript numbers

    The numbers of the modelled code are integers, quotients of integers
    and [NaN].  Quotients are kept exact; [None] stands for [NaN]. *)

Module JsNumber.

Abbreviation Number := (option Z).

(** [Math.ceil(x)] *)
Definition Math_ceil (x : Q) : Z := Qceiling x.

(** [Math.round(x)]: the nearest integer, a tie going up. *)
Definition Math_round (x : Q) : Z := Qfloor (x + (1 # 2)).

(** [a + b] *)
Definition jsAdd (a b : Number) : Number :=
  match a, b with
  | Some x, Some y => Some (x + y)%Z
  | _, _ => None
  end.

(** [lo <= c && c <= hi], false on [NaN]. *)
Definition between (lo hi : Z) (c : Number) : bool :=
  match c with
  | Some v => (lo <=? v)%Z && (v <=? hi)%Z
  | None => false
  end.

(** The value of a digit character in [parseInt]. *)
Definition digitValue (c : N) : option Z :=
  if (48 <=? c) && (c <=? 57) then Some (Z.of_N (c - 48))
  else if (97 <=? c) && (c <=? 122) then Some (Z.of_N (c - 87))
  else if (65 <=? c) && (c <=? 90) then Some (Z.of_N (c - 55))
  else None.

(** The longest prefix of digits of radix [R], as digit values. *)
Fixpoint digitsPrefix (R : Z) (s : jsstring) : list Z :=
  match s with
  | c :: s' =>
      match digitValue c with
      | Some d => if (d <? R)%Z then d :: digitsPrefix R s' else []
      | None => []
      end
  | [] => []
  end.

(** [parseInt(s)] with no radix: leading white space, a sign, an
    optional [0x] prefix, then the longest run of digits; [NaN] when
    that run is empty. *)
Definition parseInt (s : jsstring) : Number :=
  let inputString := trimStart s in
  let '(sign, unsigned) :=
    match inputString with
    | 45 :: rest => ((-1)%Z, rest)
    | 43 :: rest => (1%Z, rest)
    | _ => (1%Z, inputString)
    end in
  let '(R, body) :=
    match unsigned with
    | 48 :: 120 :: rest => (16%Z, rest)
    | 48 :: 88 :: rest => (16%Z, rest)
    | _ => (10%Z, unsigned)
    end in
  match digitsPrefix R body with
  | [] => None
  | ds => Some (sign * foldl (fun acc d => acc * R + d) 0 ds)%Z
  end.

(** [array.reduce(f)] with no initial value; it throws on an empty
    array, which is [None] here. *)
Definition reduce {A} (f : A -> A -> A) (l : list A) : option A :=
  match l with
  | [] => None
  | x :: l' => Some (foldl f x l')
  end.

End JsNumber.

Import JsNumber.

(** ** Numbers as binary64

    The threshold of [waitForConnections] is whatever Number the caller
    passes, and its product with a length is rounded as every product of
    Numbers is.  Numbers are IEEE 754 binary64 values here, with the
    operations of the Standard Library's specification of
    floating-point arithmetic: 53 bits of precision, the infinities,
    the two zeros and [NaN]. *)

Module JsDouble.

Import SpecFloat.

Abbreviation double := spec_float.

Definition prec : Z := 53.
Definition emax : Z := 1024.

(** The Number of an integer, as a literal or a [length] is. *)
Definition ofZ (n : Z) : double := binary_normalize prec emax n 0 false.

Definition ofNat (n : nat) : double := ofZ (Z.of_nat n).

(** [a * b] *)
Definition jsMul (a b : double) : double := SFmul prec emax a b.

(** [a / b] *)
Definition jsDiv (a b : double) : double := SFdiv prec emax a b.

(** [a >= b], false when either is [NaN]. *)
Definition jsGe (a b : double) : bool := SFleb b a.

(** The Number a decimal literal denotes: the binary64 nearest to
    [digits / scale], [scale] a power of ten, as [0.5] is [5 / 10]. *)
Definition literal (digits scale : Z) : double := jsDiv (ofZ digits) (ofZ scale).

(** [Math.ceil(x)]: [x] itself when it is [NaN], infinite, a zero or
    an integer; otherwise the least integer above it, which is [-0] for
    [x] between [-1] and [0]. *)
Definition Math_ceil (x : double) : double :=
  match x with
  | S754_finite s m e =>
      if (0 <=? e)%Z then x
      else
        match (- ((- cond_Zopp s (Zpos m)) / 2 ^ (- e)))%Z with
        | Z0 => S754_zero s
        | c => ofZ c
        end
  | _ => x
  end.

(** Neither [NaN] nor an infinity. *)
Definition isFinite (x : double) : bool :=
  match x with
  | S754_zero _ | S754_finite _ _ _ => true
  | _ => false
  end.

End JsDouble.

(** ** Outcomes of an asynchronous method

    The methods below run against a [World] that says what the outside
    does while they wait.  A call returns a value, throws, or is still
    suspended when the recorded rounds run out. *)

Inductive Outcome (W A : Type) : Type :=
| Returned (a : A) (w : W)
| Threw (w : W)
| Suspended.

Arguments Returned {W A} a w.
Arguments Threw {W A} w.
Arguments Suspended {W A}.

Definition M (W : Type) (A : Type) : Type := W -> Outcome W A.

#[global] Instance M_ret {W} : MRet (M W) := fun A a w => Returned a w.

#[global] Instance M_bind {W} : MBind (M W) :=
  fun A B k m w =>
    match m w with
    | Returned a w' => k a w'
    | Threw w' => Threw w'
    | Suspended => Suspended
    end.

(** ** The interactive agent *)

Module InteractiveAgent.

(** The fields of an inbound message that [onNewMessage] reads.  A
    missing [sender] or [handle] is [None]. *)
Record Message := {
  chatId : jsstring;
  isFromMe : bool;
  sender : option jsstring;
  handle : option jsstring;
  text : jsstring
}.

(** [a || b] where [a] is a string or missing: the empty string is falsy. *)
Definition orElse (a : option jsstring) (b : jsstring) : jsstring :=
  match a with
  | Some (c :: s) => c :: s
  | _ => b
  end.

(** [message.sender || message.handle || 'user'] *)
Definition senderKey (m : Message) : jsstring :=
  orElse (sender m) (orElse (handle m) (js "user")).

(** A [Map<string, V>] keeps its entries in insertion order, which the
    callers observe through [values()] and [entries()]. *)
Fixpoint mapSet {V} (k : jsstring) (v : V) (m : list (jsstring * V))
  : list (jsstring * V) :=
  match m with
  | [] => [(k, v)]
  | (k', v') :: m' =>
      if bool_decide (k' = k) then (k, v) :: m' else (k', v') :: mapSet k v m'
  end.

(** The two locals of [waitForResponses] the callback closes over. *)
Record Collected := {
  responses : list (jsstring * jsstring);
  respondedParticipants : gset jsstring
}.

Definition noResponses : Collected :=
  {| responses := []; respondedParticipants := ∅ |}.

(** The [onNewMessage] callback. *)
Definition onNewMessage (groupChatId : jsstring) (st : Collected) (message : Message)
  : Collected :=
  if negb (strictEq (chatId message) groupChatId) then st
  else if isFromMe message then st
  else
    let sender := senderKey message in
    if bool_decide (sender ∈ respondedParticipants st) then st
    else {| responses := mapSet sender (text message) (responses st);
            respondedParticipants := {[sender]} ∪ respondedParticipants st |}.

(** What the watcher hands to the callback between two tests of the
    polling loop, and [Date.now()] at the test that follows. *)
Record Round := {
  arrivals : list Message;
  clock : Z
}.

(** What the agent acts on: whether the watcher has its callback, the
    messages sent so far, the outcomes of the sends to come,
    [Date.now()], and the rounds to come. *)
Record World := {
  watching : bool;
  outbox : list (jsstring * jsstring);
  sendOutcomes : list bool;
  now : Z;
  pending : list Round
}.

Definition setWatching (b : bool) (w : World) : World :=
  {| watching := b; outbox := outbox w; sendOutcomes := sendOutcomes w;
     now := now w; pending := pending w |}.

Definition advance (r : Round) (rest : list Round) (w : World) : World :=
  {| watching := watching w; outbox := outbox w; sendOutcomes := sendOutcomes w;
     now := clock r; pending := rest |}.

(** [client.send(chatId, text)]: the next recorded outcome tells whether
    the transport accepts the message; a refused send throws. *)
Definition send (chat text : jsstring) : M World unit :=
  fun w =>
    match sendOutcomes w with
    | false :: rest =>
        Threw {| watching := watching w; outbox := outbox w;
                 sendOutcomes := rest; now := now w; pending := pending w |}
    | rest =>
        Returned tt {| watching := watching w; outbox := outbox w ++ [(chat, text)];
                       sendOutcomes := tail rest; now := now w; pending := pending w |}
    end.

(** [sdk.startWatching({ onNewMessage })] and [sdk.stopWatching()]: the
    callback receives messages only in between. *)
Definition startWatching : M World unit :=
  fun w => Returned tt (setWatching true w).

Definition stopWatching : M World unit :=
  fun w => Returned tt (setWatching false w).

Definition deliver (groupChatId : jsstring) (st : Collected) (w : World) (r : Round)
  : Collected :=
  if watching w then foldl (onNewMessage groupChatId) st (arrivals r) else st.

(** The [while (respondedParticipants.size < 1)] loop, one round of the
    world per test. *)
Fixpoint poll (groupChatId : jsstring) (timeout startTime : Z)
    (st : Collected) (w : World) (rounds : list Round)
  : Outcome World Collected :=
  match rounds with
  | [] => Suspended
  | r :: rest =>
      let st' := deliver groupChatId st w r in
      if (size (respondedParticipants st') <? 1)%nat then
        if (clock r - startTime >? timeout)%Z then Returned st' (advance r rest w)
        else poll groupChatId timeout startTime st' w rest
      else Returned st' (advance r rest w)
  end.

(** [waitForResponses(timeout)] *)
Definition waitForResponses (groupChatId : jsstring) (timeout : Z)
  : M World (list (jsstring * jsstring)) :=
  fun w0 =>
    let startTime := now w0 in
    (startWatching ;;
     st ← (fun w => poll groupChatId timeout startTime noResponses w (pending w)) ;
     stopWatching ;;
     mret (responses st)) w0.

(** [askGroupQuestion(question, timeout)] *)
Definition askGroupQuestion (groupChatId question : jsstring) (timeout : Z)
  : M World (list (jsstring * jsstring)) :=
  send groupChatId question ;;
  waitForResponses groupChatId timeout.

(** The test of one reply inside [askConfirmation]. *)
Definition isYes (response : jsstring) : bool :=
  let normalized := trim (toLowerCase response) in
  includes (js "yes") normalized
  || includes thumbsUp normalized
  || strictEq normalized (js "y").

Record Confirmation := {
  confirmed : bool;
  confirmations : list (jsstring * bool)
}.

(** The [for..of] loop of [askConfirmation]: the per-person map and
    [yesCount]. *)
Definition tally (responses : list (jsstring * jsstring))
  : list (jsstring * bool) * Z :=
  foldl (fun acc entry =>
           let '(person, response) := entry in
           let isYes := isYes response in
           (mapSet person isYes (fst acc),
            if isYes then (snd acc + 1)%Z else snd acc))
        ([], 0%Z) responses.

Definition decide_confirmation (participants : list jsstring)
    (responses : list (jsstring * jsstring)) : Confirmation :=
  let '(confirmations, yesCount) := tally responses in
  {| confirmed :=
       (Math_ceil (inject_Z (Z.of_nat (length participants)) / 2) <=? yesCount)%Z;
     confirmations := confirmations |}.

(** [askConfirmation(question)] *)
Definition askConfirmation (groupChatId : jsstring) (participants : list jsstring)
    (question : jsstring) : M World Confirmation :=
  send groupChatId (question ++ [10; 10] ++ js "Reply with YES or NO") ;;
  responses ← waitForResponses groupChatId 180000 ;
  mret (decide_confirmation participants responses).

End InteractiveAgent.

(** ** The date choice of the planner *)

Module Planner.

(** [dateOptions] always holds three dates. *)
Definition dateOptionCount : Z := 3.

(** [Array.from(dateChoices.values())] *)
Definition values {V} (m : list (jsstring * V)) : list V := snd <$> m.

(** The parsed and filtered [choices] array. *)
Definition choices (dateChoices : list (jsstring * jsstring)) : list Number :=
  filter (fun c => Is_true (between 1 3 c))
         ((fun c => parseInt (trim c)) <$> values dateChoices).

(** [chosenIndex], [None] when the expression would throw or be [NaN]. *)
Definition chosenIndex (dateChoices : list (jsstring * jsstring)) : Number :=
  let choices := choices dateChoices in
  if (0 <? length choices)%nat then
    match reduce jsAdd choices with
    | Some (Some sum) =>
        Some (Math_round (inject_Z sum / inject_Z (Z.of_nat (length choices))) - 1)%Z
    | _ => None
    end
  else Some 0%Z.

End Planner.

(** ** The calendar connection manager *)

Module CalendarOAuth.

Record CalendarConnection := {
  email : jsstring;
  accessToken : jsstring;
  refreshToken : jsstring;
  connectedAt : Z
}.

Record Tokens := {
  access_token : jsstring;
  refresh_token : jsstring
}.

(** A message of the manager to the group: who connected and the
    [connections.size] it reports. *)
Record Notice := {
  notice_chat : jsstring;
  notice_email : jsstring;
  notice_count : nat
}.

Record Manager := {
  connections : gmap jsstring CalendarConnection;
  expectedParticipants : option (list jsstring);
  groupChatId : option jsstring;
  serverUp : bool;
  notices : list Notice
}.

(** [new CalendarOAuthManager(...)] *)
Definition newManager : Manager :=
  {| connections := ∅; expectedParticipants := None; groupChatId := None;
     serverUp := false; notices := [] |}.

(** A query parameter that is present and not the empty string. *)
Definition truthy (q : option jsstring) : option jsstring :=
  match q with
  | Some (c :: s) => Some (c :: s)
  | _ => None
  end.

(** The requests the routes of [setupRoutes] serve.  A callback carries
    what the outside decides: the result of [getToken(code)] ([None]
    when it throws), the date of the handler, and whether the notice to
    the group can be sent. *)
Inductive Request :=
| GetLanding
| GetAuthGoogle (email : option jsstring)
| GetCallback (code state : option jsstring) (exchange : option Tokens)
              (at_ : Z) (noticeSent : bool)
| GetStatus.

Inductive Page :=
| LandingPage (options : list jsstring)
| RedirectToGoogle (state : jsstring)
| ErrorPage (message : jsstring)
| SuccessPage (email : jsstring)
| StatusJson (emails : list jsstring).

(** [this.connections.set(email, { email, accessToken, refreshToken,
    connectedAt })] *)
Definition recordConnection (email : jsstring) (tokens : Tokens) (at_ : Z)
    (conns : gmap jsstring CalendarConnection) : gmap jsstring CalendarConnection :=
  <[email := {| email := email; accessToken := access_token tokens;
                refreshToken := refresh_token tokens; connectedAt := at_ |}]> conns.

Definition withConnections (c : gmap jsstring CalendarConnection) (m : Manager)
  : Manager :=
  {| connections := c; expectedParticipants := expectedParticipants m;
     groupChatId := groupChatId m; serverUp := serverUp m; notices := notices m |}.

Definition withNotice (n : Notice) (m : Manager) : Manager :=
  {| connections := connections m; expectedParticipants := expectedParticipants m;
     groupChatId := groupChatId m; serverUp := serverUp m;
     notices := notices m ++ [n] |}.

(** One request through the routes. *)
Definition handle (m : Manager) (req : Request) : Manager * Page :=
  match req with
  | GetLanding => (m, LandingPage (default [] (expectedParticipants m)))
  | GetAuthGoogle email =>
      match truthy email with
      | None => (m, ErrorPage (js "Please select who you are from the dropdown"))
      | Some email => (m, RedirectToGoogle email)
      end
  | GetCallback code state exchange at_ noticeSent =>
      match truthy code, truthy state with
      | None, _ => (m, ErrorPage (js "No authorization code received"))
      | Some _, None => (m, ErrorPage (js "No participant selected"))
      | Some _, Some selectedEmail =>
          match exchange with
          | None => (m, ErrorPage (js "Failed to connect calendar"))
          | Some tokens =>
              let m' :=
                withConnections
                  (recordConnection selectedEmail tokens at_ (connections m)) m in
              match truthy (groupChatId m') with
              | Some chat =>
                  if noticeSent then
                    (withNotice {| notice_chat := chat; notice_email := selectedEmail;
                                   notice_count := size (connections m') |} m',
                     SuccessPage selectedEmail)
                  else (m', ErrorPage (js "Failed to connect calendar"))
              | None => (m', SuccessPage selectedEmail)
              end
          end
      end
  | GetStatus =>
      (m, StatusJson ((fun kv => email (snd kv)) <$> map_to_list (connections m)))
  end.

Definition serve (m : Manager) (req : Request) : Manager := fst (handle m req).

(** Everything that can happen to a manager: a request served, or one of
    its public methods called. *)
Inductive Op :=
| Serve (req : Request)
| StartServer
| StopServer
| SendConnectionLinkToGroup (chat : jsstring)
| WaitForConnectionsStarts (expectedEmails : list jsstring)
| GetConnections
| GetAuthClientForUser (email : jsstring).

Definition step (m : Manager) (op : Op) : Manager :=
  match op with
  | Serve req => serve m req
  | StartServer =>
      {| connections := connections m; expectedParticipants := expectedParticipants m;
         groupChatId := groupChatId m; serverUp := true; notices := notices m |}
  | StopServer =>
      {| connections := connections m; expectedParticipants := expectedParticipants m;
         groupChatId := groupChatId m; serverUp := false; notices := notices m |}
  | SendConnectionLinkToGroup chat =>
      {| connections := connections m; expectedParticipants := expectedParticipants m;
         groupChatId := Some chat; serverUp := true; notices := notices m |}
  | WaitForConnectionsStarts expectedEmails =>
      {| connections := connections m; expectedParticipants := Some expectedEmails;
         groupChatId := groupChatId m; serverUp := serverUp m; notices := notices m |}
  | GetConnections => m
  | GetAuthClientForUser _ => m
  end.

(** The participants with a record: the connected ones. *)
Definition connectedSet (m : Manager) : gset jsstring := dom (connections m).

(** The requests served between two tests of the loop of
    [waitForConnections], and [Date.now()] at the test that follows. *)
Record Round := {
  requests : list Request;
  tick : Z
}.

(** The manager, [Date.now()], and the rounds to come. *)
Record Server := {
  manager : Manager;
  time : Z;
  upcoming : list Round
}.

(** [expectedEmails.filter(email => this.connections.has(email))] *)
Definition connected (expectedEmails : list jsstring) (m : Manager) : list jsstring :=
  filter (fun email => is_Some (connections m !! email)) expectedEmails.

(** The [while (true)] loop: test, then sleep through the next round. *)
Fixpoint pollConnections (expectedEmails : list jsstring) (minRequired : JsDouble.double)
    (timeout startTime : Z) (m : Manager) (clk : Z) (rounds : list Round)
  : Outcome Server (gmap jsstring CalendarConnection) :=
  let stop :=
    Returned (connections m) {| manager := m; time := clk; upcoming := rounds |} in
  if JsDouble.jsGe (JsDouble.ofNat (length (connected expectedEmails m))) minRequired
  then stop
  else if (clk - startTime >? timeout)%Z then stop
  else
    match rounds with
    | [] => Suspended
    | r :: rest =>
        pollConnections expectedEmails minRequired timeout startTime
                        (foldl serve m (requests r)) (tick r) rest
    end.

(** [waitForConnections(expectedEmails, timeout, minThreshold)] *)
Definition waitForConnections (expectedEmails : list jsstring) (timeout : Z)
    (minThreshold : JsDouble.double) : M Server (gmap jsstring CalendarConnection) :=
  fun s =>
    let m := step (manager s) (WaitForConnectionsStarts expectedEmails) in
    let startTime := time s in
    let minRequired :=
      JsDouble.Math_ceil
        (JsDouble.jsMul (JsDouble.ofNat (length expectedEmails)) minThreshold) in
    pollConnections expectedEmails minRequired timeout startTime m (time s) (upcoming s).

End CalendarOAuth.

(** ** Notions of the specification *)

Module Spec.

(** The reply holds the letters y, e, s in a row, in either case. *)
Definition containsYes (reply : jsstring) : Prop :=
  exists pre c1 c2 c3 post,
    reply = pre ++ c1 :: c2 :: c3 :: post
    /\ (c1 = 121 \/ c1 = 89) /\ (c2 = 101 \/ c2 = 69) /\ (c3 = 115 \/ c3 = 83).

Definition allWs (s : jsstring) : Prop := Forall (fun c => isWhiteSpace c = true) s.

(** The reply is the single letter y, in either case, with nothing but
    white space around it. *)
Definition isTokenY (reply : jsstring) : Prop :=
  exists ws1 c ws2,
    reply = ws1 ++ c :: ws2 /\ allWs ws1 /\ allWs ws2 /\ (c = 121 \/ c = 89).

(** The reply holds a thumbs-up sign. *)
Definition containsThumbsUp (reply : jsstring) : Prop :=
  exists pre post, reply = pre ++ thumbsUp ++ post.

Definition affirmative (reply : jsstring) : Prop :=
  containsYes reply \/ isTokenY reply \/ containsThumbsUp reply.

Import InteractiveAgent.

(** A message the collector takes into account: one of the session's
    chat that the system did not write itself. *)
Definition accepted (groupChatId : jsstring) (m : Message) : bool :=
  strictEq (chatId m) groupChatId && negb (isFromMe m).

(** The text of the first message of sender [s] among [msgs]. *)
Fixpoint firstFrom (groupChatId s : jsstring) (msgs : list Message) : option jsstring :=
  match msgs with
  | [] => None
  | m :: rest =>
      if accepted groupChatId m && bool_decide (senderKey m = s) then Some (text m)
      else firstFrom groupChatId s rest
  end.

(** The first message among [msgs] that the collector takes into account. *)
Fixpoint firstAccepted (groupChatId : jsstring) (msgs : list Message) : option Message :=
  match msgs with
  | [] => None
  | m :: rest => if accepted groupChatId m then Some m else firstAccepted groupChatId rest
  end.

(** The sender id the channel reports with a message: its [sender]
    field, when it has one that is not empty. *)
Definition reported (m : Message) : option jsstring :=
  match sender m with
  | Some (c :: s) => Some (c :: s)
  | _ => None
  end.

(** The sender a message is tagged with: the id the channel reports,
    without one the handle it came from, and 'user' without both. *)
Definition tag (m : Message) : jsstring :=
  match reported m, handle m with
  | Some s, _ => s
  | None, Some (c :: h) => c :: h
  | None, _ => js "user"
  end.

(** The text of the first message tagged with [s] among [msgs]. *)
Fixpoint firstTagged (groupChatId s : jsstring) (msgs : list Message) : option jsstring :=
  match msgs with
  | [] => None
  | m :: rest =>
      if accepted groupChatId m && bool_decide (tag m = s) then Some (text m)
      else firstTagged groupChatId s rest
  end.

(** The text of the first message the channel reports as sent by [s]. *)
Fixpoint firstReported (groupChatId s : jsstring) (msgs : list Message) : option jsstring :=
  match msgs with
  | [] => None
  | m :: rest =>
      if accepted groupChatId m && bool_decide (reported m = Some s) then Some (text m)
      else firstReported groupChatId s rest
  end.

(** The distinct senders of the messages that count. *)
Definition senders (groupChatId : jsstring) (msgs : list Message) : gset jsstring :=
  list_to_set (tag <$> filter (fun m => accepted groupChatId m = true) msgs).

(** Every message that counts comes with a sender id. *)
Definition allReported (groupChatId : jsstring) (msgs : list Message) : Prop :=
  Forall (fun m => accepted groupChatId m = true -> is_Some (reported m)) msgs.

(** The messages handed to the callback over some rounds, in order. *)
Definition delivered (rounds : list Round) : list Message :=
  concat (arrivals <$> rounds).

(** What the callback has collected after [msgs], starting from nothing. *)
Definition collect (groupChatId : jsstring) (msgs : list Message) : Collected :=
  foldl (onNewMessage groupChatId) noResponses msgs.

(** The set of senders seen and the keys of the map go together. *)
Definition consistent (st : Collected) : Prop :=
  (forall s, s ∈ respondedParticipants st <-> s ∈ (responses st).*1)
  /\ NoDup (responses st).*1.

(** A round in which the collector takes no message into account. *)
Definition quiet (groupChatId : jsstring) (r : Round) : bool :=
  forallb (fun m => negb (accepted groupChatId m)) (arrivals r).

(** The round ends the wait: it brings a message that counts, or the
    test after it finds the timeout elapsed. *)
Definition ends (groupChatId : jsstring) (timeout startTime : Z) (r : Round) : bool :=
  negb (quiet groupChatId r) || (clock r - startTime >? timeout)%Z.

(** The world after a wait that round [q] ended, [rest] still to come. *)
Definition afterStage (w : World) (q : Round) (rest : list Round) : World :=
  {| watching := false; outbox := outbox w; sendOutcomes := sendOutcomes w;
     now := clock q; pending := rest |}.

(** The world after [client.send(chat, text)] went through. *)
Definition afterSend (w : World) (chat text : jsstring) : World :=
  {| watching := watching w; outbox := outbox w ++ [(chat, text)];
     sendOutcomes := tail (sendOutcomes w); now := now w; pending := pending w |}.

(** A message that carries neither a sender nor a handle. *)
Definition anonymous (m : Message) : Prop := sender m = None /\ handle m = None.

(** The number of replies normalised to true. *)
Definition yesVotes (confirmations : list (jsstring * bool)) : nat :=
  length (filter (fun entry => entry.2 = true) confirmations).

Import Planner.

(** The replies that parse to an option number, as numbers. *)
Definition validValues (dateChoices : list (jsstring * jsstring)) : list Z :=
  omap (fun c => match parseInt (trim c) with
                 | Some v => if (1 <=? v)%Z && (v <=? dateOptionCount)%Z then Some v else None
                 | None => None
                 end)
       (values dateChoices).

Definition sumZ (vs : list Z) : Z := foldr Z.add 0%Z vs.

(** [k] is the integer nearest to the mean of [vs], the upper one when
    two are equally near: [k - 1/2 <= sum / n < k + 1/2]. *)
Definition roundOfMean (vs : list Z) (k : Z) : Prop :=
  let n := Z.of_nat (length vs) in
  ((2 * k - 1) * n <= 2 * sumZ vs < (2 * k + 1) * n)%Z.

Import CalendarOAuth.

(** The manager after the requests of some rounds, and the clock at the
    test that follows them. *)
Definition after (m : Manager) (rounds : list CalendarOAuth.Round) : Manager :=
  foldl (fun m r => foldl serve m (requests r)) m rounds.

Fixpoint clockAfter (clk : Z) (rounds : list CalendarOAuth.Round) : Z :=
  match rounds with
  | [] => clk
  | r :: rest => clockAfter (tick r) rest
  end.

(** The number of entries of the roster that are among [who]. *)
Fixpoint connectedOfRoster (roster : list jsstring) (who : gset jsstring) : nat :=
  match roster with
  | [] => 0
  | participant :: rest =>
      (if decide (participant ∈ who) then 1 else 0) + connectedOfRoster rest who
  end.

(** Enough of the roster is connected: the number of its connected
    entries is at least [minRequired]. *)
Definition quorum (roster : list jsstring) (minRequired : JsDouble.double)
    (m : Manager) : bool :=
  JsDouble.jsGe (JsDouble.ofNat (connectedOfRoster roster (connectedSet m))) minRequired.

(** The wait is over: enough of the roster is connected, or the timeout
    has elapsed. *)
Definition settled (roster : list jsstring) (minRequired : JsDouble.double)
    (timeout startTime : Z) (m : Manager) (clk : Z) : bool :=
  quorum roster minRequired m || (clk - startTime >? timeout)%Z.

(** The participant a request connects, if it does. *)
Definition granted (req : Request) : option jsstring :=
  match req with
  | GetCallback code state (Some _) _ _ =>
      match truthy code with
      | Some _ => truthy state
      | None => None
      end
  | _ => None
  end.

(** [waitForQuorum] returning records of roster participants only. *)
Definition returnsRosterOnly : Prop :=
  forall roster timeout minFraction s conns s',
    waitForConnections roster timeout minFraction s = Returned conns s' ->
    forall participant, is_Some (conns !! participant) -> participant ∈ roster.

(** [collect] returning only once [minResponses] responses are
    recorded or the timeout has elapsed. *)
Definition returnsAtThreshold (groupChatId : jsstring) (minResponses : nat) : Prop :=
  forall timeout w res w',
    waitForResponses groupChatId timeout w = Returned res w' ->
    (minResponses <= length res)%nat \/ (now w' - now w > timeout)%Z.

End Spec.

(** ** Sample sessions *)

Module Samples.

Import InteractiveAgent.

Definition chat : jsstring := js "chat85598446218630183".

Definition says (who reply : string) : Message :=
  {| chatId := chat; isFromMe := false; sender := Some (js who); handle := None;
     text := js reply |}.

Definition unsigned (reply : string) : Message :=
  {| chatId := chat; isFromMe := false; sender := None; handle := None;
     text := js reply |}.

(** A world in which the agent is not watching, at time [t]. *)
Definition idleAt (t : Z) (rounds : list Round) : World :=
  {| watching := false; outbox := []; sendOutcomes := []; now := t;
     pending := rounds |}.

Definition idle (rounds : list Round) : World := idleAt 0 rounds.

(** Two people answer within the same second, one of them twice; a
    third answers after the stage is over. *)
Definition twoAnswer : World :=
  idle [ {| arrivals := []; clock := 12%Z |};
         {| arrivals := [says "p1" "2"; says "p2" "3"; says "p1" "1"];
            clock := 1013%Z |};
         {| arrivals := [says "p3" "1"]; clock := 2015%Z |} ].

(** One answer in the first second, another one in the next. *)
Definition oneThenOne : World :=
  idle [ {| arrivals := [says "p1" "1"]; clock := 1001%Z |};
         {| arrivals := [says "p2" "2"]; clock := 2003%Z |} ].

(** Nobody answers within five seconds. *)
Definition silence : World :=
  idle [ {| arrivals := []; clock := 1%Z |};
         {| arrivals := []; clock := 2502%Z |};
         {| arrivals := []; clock := 5003%Z |};
         {| arrivals := [says "p1" "late"]; clock := 6004%Z |} ].

(** The same person answers two questions in a row. *)
Definition twoStages : World :=
  idle [ {| arrivals := [says "p1" "first"]; clock := 1001%Z |};
         {| arrivals := [says "p1" "second"; says "p2" "other"]; clock := 9001%Z |} ].

(** Three messages without sender or handle. *)
Definition unsignedOnly : World :=
  idle [ {| arrivals := [unsigned "one"; unsigned "two"]; clock := 1001%Z |};
         {| arrivals := [unsigned "three"]; clock := 2001%Z |} ].

(** The roster of the planner and two confirmation rounds in which two
    of the four answer within the same second. *)
Definition roster : list jsstring := [js "user1"; js "user2"; js "user3"; js "user4"].

Definition yesAndNo : World :=
  idle [ {| arrivals := [says "p1" "yes"; says "p2" "no"]; clock := 1001%Z |} ].

Definition yesAndYes : World :=
  idle [ {| arrivals := [says "p1" "yes"; says "p2" "yes"]; clock := 1001%Z |} ].

Definition yesAndNoResult : Confirmation :=
  {| confirmed := false; confirmations := [(js "p1", true); (js "p2", false)] |}.

Definition yesAndYesResult : Confirmation :=
  {| confirmed := true; confirmations := [(js "p1", true); (js "p2", true)] |}.

Definition question : jsstring := js "Does this plan work for everyone?".

Definition asked (t : Z) : World :=
  {| watching := false;
     outbox := [(chat, question ++ [10; 10] ++ js "Reply with YES or NO")];
     sendOutcomes := []; now := t; pending := [] |}.

(** The replies of the specification's example, and two replies at the
    two ends of the range. *)
Definition fourReplies : list (jsstring * jsstring) :=
  [(js "p1", js "1"); (js "p2", js "2"); (js "p3", js "5"); (js "p4", js "abc")].

Definition oneAndThree : list (jsstring * jsstring) :=
  [(js "p1", js "1"); (js "p2", js "3")].

Import CalendarOAuth.

Definition credential : Tokens :=
  {| access_token := js "ya29.a0"; refresh_token := js "1//0g" |}.

(** A completed authorization for the participant picked in the dropdown. *)
Definition authorizes (who : string) (at_ : Z) : Request :=
  GetCallback (Some (js "4/0Ab")) (Some (js who)) (Some credential) at_ true.

(** The record that authorization leaves. *)
Definition record (who : string) (at_ : Z) : CalendarConnection :=
  {| email := js who; accessToken := access_token credential;
     refreshToken := refresh_token credential; connectedAt := at_ |}.

Definition abcd : list jsstring := [js "a"; js "b"; js "c"; js "d"].

(** Somebody outside the roster connects, then two of the roster. *)
Definition outsiderFirst : Server :=
  {| manager := newManager; time := 0%Z;
     upcoming := [ {| requests := [authorizes "z" 1500]; tick := 2001%Z |};
                   {| requests := [authorizes "c" 2500; GetStatus]; tick := 4002%Z |};
                   {| requests := [authorizes "a" 4500]; tick := 6003%Z |};
                   {| requests := [authorizes "b" 6500]; tick := 8004%Z |} ] |}.

(** The default threshold, [0.5]. *)
Definition half : JsDouble.double := JsDouble.literal 5 10.

(** Nobody connects within six seconds. *)
Definition nobody : Server :=
  {| manager := newManager; time := 0%Z;
     upcoming := [ {| requests := [GetLanding]; tick := 2001%Z |};
                   {| requests := []; tick := 4002%Z |};
                   {| requests := []; tick := 6003%Z |};
                   {| requests := [authorizes "a" 6500]; tick := 8004%Z |} ] |}.

End Samples.

(** ** The planner's other choices

    The location and restaurant choices, the budget and the date options
    of [examples/clean-interactive-planner.ts], and the date choice of
    the interactive holiday planner. *)

Module Choices.

Import Planner.

(** [a - b] *)
Definition jsSub (a b : Number) : Number :=
  match a, b with
  | Some x, Some y => Some (x - y)%Z
  | _, _ => None
  end.

(** [array[i]]: [undefined], here [None], off the array and at [NaN]. *)
Definition jsIndex {A} (array : list A) (i : Number) : option A :=
  match i with
  | Some z => if (0 <=? z)%Z then array !! Z.to_nat z else None
  | None => None
  end.

(** [array[0]] read as a number: [undefined] turns into [NaN]. *)
Definition firstNumber (array : list Number) : Number :=
  default None (array !! 0%nat).

(** [list.slice(0, 3)] *)
Definition slice03 {A} (array : list A) : list A := take 3 array.

(** The parsed and filtered [locChoices] array. *)
Definition locChoices {A} (locationList : list A)
    (locationChoices : list (jsstring * jsstring)) : list Number :=
  filter (fun c => Is_true (between 1 (Z.of_nat (length locationList)) c))
         ((fun c => parseInt (trim c)) <$> values locationChoices).

(** [locChoices.length > 0 ? locChoices[0] - 1 : 0] *)
Definition chosenLocIndex {A} (locationList : list A)
    (locationChoices : list (jsstring * jsstring)) : Number :=
  let locChoices := locChoices locationList locationChoices in
  if (0 <? length locChoices)%nat then jsSub (firstNumber locChoices) (Some 1%Z)
  else Some 0%Z.

(** [locationList[chosenLocIndex]] *)
Definition chosenLocation {A} (locationList : list A)
    (locationChoices : list (jsstring * jsstring)) : option A :=
  jsIndex locationList (chosenLocIndex locationList locationChoices).

(** The restaurant is chosen by the same lines over [restaurantList]. *)
Definition chosenRestIndex {A} (restaurantList : list A)
    (restaurantChoices : list (jsstring * jsstring)) : Number :=
  let restChoices :=
    filter (fun c => Is_true (between 1 (Z.of_nat (length restaurantList)) c))
           ((fun c => parseInt (trim c)) <$> values restaurantChoices) in
  if (0 <? length restChoices)%nat then jsSub (firstNumber restChoices) (Some 1%Z)
  else Some 0%Z.

Definition chosenRestaurant {A} (restaurantList : list A)
    (restaurantChoices : list (jsstring * jsstring)) : option A :=
  jsIndex restaurantList (chosenRestIndex restaurantList restaurantChoices).

(** The date choice of [InteractiveHolidayPlanner.startPlanning]: the
    range is 1 to 3 whatever the number of slots. *)
Definition chosenSlotIndex (dateChoiceResponses : list (jsstring * jsstring)) : Number :=
  let choices :=
    filter (fun c => Is_true (between 1 3 c))
           ((fun c => parseInt (trim c)) <$> values dateChoiceResponses) in
  if (0 <? length choices)%nat then jsSub (firstNumber choices) (Some 1%Z)
  else Some 0%Z.

Definition chosenSlot {A} (availableSlots : list A)
    (dateChoiceResponses : list (jsstring * jsstring)) : option A :=
  jsIndex availableSlots (chosenSlotIndex dateChoiceResponses).

Inductive Budget := low | medium | high.

(** [budgetVals.some(b => b.toLowerCase().includes('high')) ? 'high' :
    budgetVals.some(b => b.toLowerCase().includes('low')) ? 'low' : 'medium'] *)
Definition budget (budgetVals : list jsstring) : Budget :=
  if existsb (fun b => includes (js "high") (toLowerCase b)) budgetVals then high
  else if existsb (fun b => includes (js "low") (toLowerCase b)) budgetVals then low
  else medium.




End Choices.

(** ** The message client

    The group path of [IMessageClient.send] in [src/client.ts]. *)

Module Client.

(** [s.replace(/c/g, by)] for a pattern of one character. *)
Definition replaceAll (c : N) (by_ : jsstring) (s : jsstring) : jsstring :=
  s ≫= (fun x => if x =? c then by_ else [x]).

(** [s.replace(needle, by)]: the first occurrence only. *)
Fixpoint replaceFirst (needle by_ s : jsstring) : jsstring :=
  if startsWith needle s then by_ ++ drop (length needle) s
  else match s with
       | [] => []
       | c :: s' => c :: replaceFirst needle by_ s'
       end.

(** [chatId.replace('chat', '')] *)
Definition numericId (chatId : jsstring) : jsstring :=
  replaceFirst (js "chat") [] chatId.

(** The three [replace] calls on the text: backslashes, then double
    quotes, then line feeds. *)
Definition escapedText (text : jsstring) : jsstring :=
  replaceAll 10 [92; 110] (replaceAll 34 [92; 34] (replaceAll 92 [92; 92] text)).

(** Where [send] takes a text message. *)
Inductive Delivery :=
| ViaAppleScript (numericId escapedText : jsstring)
| ViaSdk (chatId message : jsstring).

Definition delivery (chatId message : jsstring) : Delivery :=
  if startsWith (js "chat") chatId
  then ViaAppleScript (numericId chatId) (escapedText message)
  else ViaSdk chatId message.

End Client.

(** ** Reading the connections *)

Module OAuthReads.

Import CalendarOAuth.

(** [getAuthClientForUser(email)]: [null], here [None], without a
    connection, else a client with the credentials of the record. *)
Definition getAuthClientForUser (m : Manager) (email : jsstring) : option Tokens :=
  match connections m !! email with
  | None => None
  | Some connection =>
      Some {| access_token := accessToken connection;
              refresh_token := refreshToken connection |}
  end.

End OAuthReads.

(** ** Notions for the further properties *)

Module Notions.

Import InteractiveAgent Planner Choices Client CalendarOAuth.

(** The reply holds the letters of [word] in a row, in either case. *)
Definition containsWord (word reply : jsstring) : Prop :=
  exists pre mid post,
    reply = pre ++ mid ++ post
    /\ Forall2 (fun c l => c = l \/ c = l - 32) mid word.

(** The value of a reply when it is a number from 1 to [n]. *)
Definition validChoice (n : Z) (reply : jsstring) : option Z :=
  match parseInt (trim reply) with
  | Some v => if (1 <=? v)%Z && (v <=? n)%Z then Some v else None
  | None => None
  end.

(** The first reply, in the order of the map, that is a number from 1
    to [n]. *)
Fixpoint firstValid (n : Z) (replies : list (jsstring * jsstring)) : option Z :=
  match replies with
  | [] => None
  | (_, reply) :: rest =>
      match validChoice n reply with
      | Some v => Some v
      | None => firstValid n rest
      end
  end.

(** One character of the text as the three [replace] calls leave it. *)
Definition escapedUnit (c : N) : jsstring :=
  if c =? 92 then [92; 92]
  else if c =? 34 then [92; 34]
  else if c =? 10 then [92; 110]
  else [c].

(** Reading an escaped text back: a backslash stands with the
    character after it for one character. *)
Fixpoint unescaped (s : jsstring) : jsstring :=
  match s with
  | [] => []
  | c :: rest =>
      if c =? 92 then
        match rest with
        | [] => [92]
        | d :: rest' => (if d =? 110 then 10 else d) :: unescaped rest'
        end
      else c :: unescaped rest
  end.

(** The first message of every sender among [msgs], in the order of
    arrival; [seen] are the senders already met. *)
Fixpoint firstReplies (groupChatId : jsstring) (seen : list jsstring)
    (msgs : list Message) : list (jsstring * jsstring) :=
  match msgs with
  | [] => []
  | m :: rest =>
      if Spec.accepted groupChatId m && bool_decide (senderKey m ∉ seen)
      then (senderKey m, text m) :: firstReplies groupChatId (senderKey m :: seen) rest
      else firstReplies groupChatId seen rest
  end.

(** The world after [client.send] threw. *)
Definition afterRefusedSend (w : World) : World :=
  {| watching := watching w; outbox := outbox w; sendOutcomes := tail (sendOutcomes w);
     now := now w; pending := pending w |}.

(** A manager that the constructor and the operations can produce. *)
Definition reachable (m : Manager) : Prop :=
  exists ops, m = foldl step newManager ops.

(** Every record is filed under its own [email]. *)
Definition filed (m : Manager) : Prop :=
  forall participant connection,
    connections m !! participant = Some connection -> email connection = participant.

End Notions.

(** ** Further sample sessions *)

Module MoreSamples.

Import InteractiveAgent Samples.

(** The transport refuses the next message. *)
Definition refusing : World :=
  {| watching := false; outbox := []; sendOutcomes := [false]; now := 0%Z;
     pending := [ {| arrivals := [says "p1" "yes"]; clock := 1001%Z |} ] |}.

(** One of the four says yes, alone. *)
Definition oneYes : World :=
  idle [ {| arrivals := [says "p1" "yes"]; clock := 1001%Z |} ].

(** Nobody answers within the three minutes of a confirmation. *)
Definition threeMinutes : World :=
  idle [ {| arrivals := []; clock := 90000%Z |};
         {| arrivals := []; clock := 180001%Z |} ].

Import CalendarOAuth.

(** A manager whose link went out to the group. *)
Definition linked : Manager := step newManager (SendConnectionLinkToGroup chat).

(** An authorization whose code Google does not accept. *)
Definition rejected : Request :=
  GetCallback (Some (js "4/0Ab")) (Some (js "a")) None 1500 true.

(** The group cannot be told about an authorization. *)
Definition untold : Request :=
  GetCallback (Some (js "4/0Ab")) (Some (js "a")) (Some credential) 1500 false.

(** Two of the roster are connected before the wait starts. *)
Definition twoConnected : Server :=
  {| manager := foldl serve newManager [authorizes "a" 100; authorizes "b" 200];
     time := 1000%Z;
     upcoming := [ {| requests := [authorizes "c" 1500]; tick := 3001%Z |} ] |}.

End MoreSamples.

(** ** The calendar agent

    [CalendarAgent.findCommonFreeSlots], which the holiday planner asks
    for the dates it offers. *)

Module CalendarAgent.

(** A busy period through [new Date(busy.start)] and
    [new Date(busy.end)], in milliseconds. *)
Record Busy := {
  start : Z;
  end_ : Z
}.

#[global] Instance Busy_eq_dec : EqDecision Busy.
Proof. solve_decision. Defined.

(** One calendar of the free/busy answer; its [busy] list may be missing. *)
Record Calendar := {
  busy : option (list Busy)
}.

(** A slot through the two instants its [date], [start] and [end]
    strings are printed from: [currentTime] and [slotEndTime]. *)
Record CalendarSlot := {
  slotStart : Z;
  slotEnd : Z
}.

(** The [for (const email in calendars)] loop, over the calendars in
    the order of their keys. *)
Definition allBusyPeriods (calendars : list (jsstring * Calendar)) : list Busy :=
  calendars ≫= (fun entry => default [] (busy entry.2)).

(** [allBusyPeriods.sort((a, b) => a.start.getTime() - b.start.getTime())]:
    ascending by start, periods with the same start in the order they
    had. *)
Fixpoint insertByStart (b : Busy) (sorted : list Busy) : list Busy :=
  match sorted with
  | [] => [b]
  | x :: rest =>
      if (start b <=? start x)%Z then b :: x :: rest
      else x :: insertByStart b rest
  end.

Definition sortByStart (periods : list Busy) : list Busy :=
  foldr insertByStart [] periods.

(** [array.find(p)] *)
Fixpoint find {A} (p : A -> bool) (array : list A) : option A :=
  match array with
  | [] => None
  | x :: rest => if p x then Some x else find p rest
  end.

(** The [while (currentTime < endTime)] loop; [fuel] bounds the number
    of its rounds, and [None] says that it was not enough. *)
Fixpoint freeSlotsLoop (fuel : nat) (sorted : list Busy) (durationMs endTime : Z)
    (currentTime : Z) (slots : list CalendarSlot) : option (list CalendarSlot) :=
  if (currentTime <? endTime)%Z then
    match fuel with
    | O => None
    | S fuel' =>
        let nextBusy := find (fun busy => (currentTime <? start busy)%Z) sorted in
        let slotEnd :=
          match nextBusy with
          | Some nextBusy => start nextBusy
          | None => endTime
          end in
        let availableDuration := (slotEnd - currentTime)%Z in
        let slots' :=
          if (durationMs <=? availableDuration)%Z
          then slots ++ [ {| slotStart := currentTime;
                             slotEnd := (currentTime + durationMs)%Z |} ]
          else slots in
        freeSlotsLoop fuel' sorted durationMs endTime
                      match nextBusy with
                      | Some nextBusy => end_ nextBusy
                      | None => endTime
                      end
                      slots'
    end
  else Some slots.

(** [findCommonFreeSlots(calendars, startDate, endDate, duration)], the
    duration in hours. *)
Definition findCommonFreeSlots (fuel : nat) (calendars : list (jsstring * Calendar))
    (startDate endDate duration : Z) : option (list CalendarSlot) :=
  let durationMs := (duration * 60 * 60 * 1000)%Z in
  slots ← freeSlotsLoop fuel (sortByStart (allBusyPeriods calendars))
                         durationMs endDate startDate [];
  Some (take 5 slots).

End CalendarAgent.

(** ** Notions for the free slots *)

Module SlotNotions.

Import CalendarAgent.








(** Nobody has anything planned. *)
Definition freeDay : list (jsstring * Calendar) :=
  [ (js "a", {| busy := Some [] |}); (js "b", {| busy := None |}) ].

End SlotNotions.

(** ** Notions for the Numbers *)

Module DoubleNotions.

Import SpecFloat JsDouble.

(** A Number that is not [NaN] and carries the sign [s]. *)
Definition signed (s : bool) (x : double) : Prop :=
  match x with
  | S754_zero s' | S754_infinity s' | S754_finite s' _ _ => s' = s
  | S754_nan => False
  end.

(** The mantissa of an integer of at most 53 bits, brought to 53 bits. *)
Definition aligned (p : positive) : positive :=
  match (53 - Zpos (digits2_pos p))%Z with
  | Zpos k => Pos.iter xO p k
  | _ => p
  end.

(** Zero or below; the infinity below counts, [NaN] does not. *)
Definition notPositive (x : double) : bool := jsGe (S754_zero false) x.

(** Zero or a positive finite Number, as a count is. *)
Definition isCount (x : double) : Prop :=
  x = S754_zero false \/ exists m e, x = S754_finite false m e.

End DoubleNotions.

(** * Properties *)

(** ** Strings *)

Section StringFacts.

Import Spec.

Implicit Types (s needle pre post : jsstring) (c : N).

Lemma startsWith_spec needle s :
  startsWith needle s = true <-> exists post, s = needle ++ post.
Proof.
  revert s; induction needle as [|p needle IH]; intros s; simpl.
  - split; [eauto | done].
  - destruct s as [|c s].
    + split; [done | intros [post H]; discriminate].
    + rewrite andb_true_iff, N.eqb_eq, IH. split.
      * intros [-> [post ->]]. eauto.
      * intros [post H]. injection H as -> ->. eauto.
Qed.

Lemma includes_spec needle s :
  includes needle s = true <-> exists pre post, s = pre ++ needle ++ post.
Proof.
  induction s as [|c s IH]; simpl.
  - rewrite orb_false_r, startsWith_spec. split.
    + intros [post H]. exists [], post. done.
    + intros (pre & post & H). symmetry in H.
      apply app_eq_nil in H as [-> H]. exists post. done.
  - rewrite orb_true_iff, startsWith_spec, IH. split.
    + intros [[post H] | (pre & post & ->)].
      * exists [], post. done.
      * exists (c :: pre), post. done.
    + intros (pre & post & H). destruct pre as [|c' pre]; simpl in H.
      * left. eauto.
      * right. injection H as -> ->. eauto.
Qed.

Lemma isWhiteSpace_true c :
  isWhiteSpace c = true -> c <= 13 \/ c = 32 \/ 160 <= c.
Proof.
  unfold isWhiteSpace.
  rewrite !orb_true_iff, !andb_true_iff, !N.leb_le, !N.eqb_eq. lia.
Qed.

Lemma isWhiteSpace_letter c : 33 <= c <= 159 -> isWhiteSpace c = false.
Proof.
  intros H. destruct (isWhiteSpace c) eqn:E; [|done].
  apply isWhiteSpace_true in E. lia.
Qed.

Lemma toLowerCaseUnit_cases c :
  (65 <= c <= 90 /\ toLowerCaseUnit c = c + 32)
  \/ (~ 65 <= c <= 90 /\ toLowerCaseUnit c = c).
Proof.
  unfold toLowerCaseUnit.
  destruct (N.leb_spec 65 c), (N.leb_spec c 90); simpl; lia.
Qed.

Lemma isWhiteSpace_toLowerCaseUnit c :
  isWhiteSpace (toLowerCaseUnit c) = isWhiteSpace c.
Proof.
  destruct (toLowerCaseUnit_cases c) as [[H ->] | [_ ->]]; [|done].
  rewrite !isWhiteSpace_letter; [done | lia..].
Qed.

Lemma toLowerCaseUnit_eq c (l : N) :
  97 <= l <= 122 -> toLowerCaseUnit c = l <-> c = l \/ c = l - 32.
Proof. intros H. destruct (toLowerCaseUnit_cases c) as [[? ->] | [? ->]]; lia. Qed.

Lemma toLowerCaseUnit_high c (h : N) :
  123 <= h -> toLowerCaseUnit c = h <-> c = h.
Proof. intros H. destruct (toLowerCaseUnit_cases c) as [[? ->] | [? ->]]; lia. Qed.

Lemma allWs_reverse s : allWs s -> allWs (reverse s).
Proof. unfold allWs. rewrite !Forall_forall. intros H c Hc. apply H. by apply elem_of_reverse. Qed.

Lemma trimStart_decompose s : exists ws, s = ws ++ trimStart s /\ allWs ws.
Proof.
  induction s as [|c s (ws & IH & Hws)]; simpl.
  - exists []. split; [done | constructor].
  - destruct (isWhiteSpace c) eqn:E.
    + exists (c :: ws). split; [by rewrite IH at 1 | by constructor].
    + exists []. split; [done | constructor].
Qed.

Lemma trimStart_ws ws rest : allWs ws -> trimStart (ws ++ rest) = trimStart rest.
Proof. induction 1 as [|c ws Hc _ IH]; simpl; [done|]. by rewrite Hc. Qed.

Lemma trimStart_nonws c rest : isWhiteSpace c = false -> trimStart (c :: rest) = c :: rest.
Proof. intros H. simpl. by rewrite H. Qed.

Lemma trimStart_keeps pre c rest :
  isWhiteSpace c = false -> exists pre', trimStart (pre ++ c :: rest) = pre' ++ c :: rest.
Proof.
  intros Hc. induction pre as [|c' pre [pre' IH]]; simpl.
  - exists []. by rewrite Hc.
  - destruct (isWhiteSpace c'); [by exists pre' | by exists (c' :: pre)].
Qed.

Lemma trimEnd_decompose s : exists ws, s = trimEnd s ++ ws /\ allWs ws.
Proof.
  destruct (trimStart_decompose (reverse s)) as (ws & H & Hws).
  exists (reverse ws). split; [|by apply allWs_reverse].
  unfold trimEnd. rewrite <- reverse_app, <- H. by rewrite reverse_involutive.
Qed.

Lemma trimEnd_ws rest ws : allWs ws -> trimEnd (rest ++ ws) = trimEnd rest.
Proof.
  intros H. unfold trimEnd. rewrite reverse_app, trimStart_ws; [done|].
  by apply allWs_reverse.
Qed.

Lemma trimEnd_nonws rest c : isWhiteSpace c = false -> trimEnd (rest ++ [c]) = rest ++ [c].
Proof.
  intros H. unfold trimEnd. rewrite reverse_app, reverse_singleton.
  change ([c] ++ reverse rest) with (c :: reverse rest).
  rewrite trimStart_nonws by done. by rewrite reverse_cons, reverse_involutive.
Qed.

Lemma trimEnd_keeps pre c post :
  isWhiteSpace c = false -> exists post', trimEnd (pre ++ c :: post) = pre ++ c :: post'.
Proof.
  intros Hc. unfold trimEnd.
  rewrite reverse_app, reverse_cons, <- (assoc_L (++)). simpl.
  destruct (trimStart_keeps (reverse post) c (reverse pre) Hc) as [pre' ->].
  exists (reverse pre').
  rewrite reverse_app, reverse_cons, reverse_involutive, <- (assoc_L (++)). done.
Qed.

(** [trim] only drops white space at the two ends. *)
Lemma trim_decompose s :
  exists ws1 ws2, s = ws1 ++ trim s ++ ws2 /\ allWs ws1 /\ allWs ws2.
Proof.
  destruct (trimStart_decompose s) as (ws1 & H1 & Hws1).
  destruct (trimEnd_decompose (trimStart s)) as (ws2 & H2 & Hws2).
  exists ws1, ws2. unfold trim. by rewrite <- H2.
Qed.

Lemma trim_single ws1 c ws2 :
  allWs ws1 -> allWs ws2 -> isWhiteSpace c = false -> trim (ws1 ++ c :: ws2) = [c].
Proof.
  intros H1 H2 Hc. unfold trim.
  rewrite trimStart_ws by done. simpl. rewrite Hc.
  change (c :: ws2) with ([c] ++ ws2). rewrite trimEnd_ws by done.
  by apply (trimEnd_nonws []).
Qed.

(** A needle that starts and ends with something other than white space
    is found in the trimmed string exactly when it is found in the
    string. *)
Lemma includes_trim a mid z s :
  isWhiteSpace a = false -> isWhiteSpace z = false ->
  includes (a :: mid ++ [z]) (trim s) = includes (a :: mid ++ [z]) s.
Proof.
  intros Ha Hz. apply eq_true_iff_eq. rewrite !includes_spec. split.
  - intros (pre & post & H).
    destruct (trim_decompose s) as (ws1 & ws2 & Hs & _ & _).
    exists (ws1 ++ pre), (post ++ ws2). rewrite Hs, H.
    by rewrite <- !(assoc_L (++)).
  - intros (pre & post & ->). unfold trim.
    rewrite <- app_comm_cons.
    destruct (trimStart_keeps pre a ((mid ++ [z]) ++ post) Ha) as [pre' ->].
    replace (pre' ++ a :: (mid ++ [z]) ++ post)
      with ((pre' ++ a :: mid) ++ z :: post)
      by (by rewrite <- !(assoc_L (++))).
    destruct (trimEnd_keeps (pre' ++ a :: mid) z post Hz) as [post' ->].
    exists pre', post'. rewrite <- !(assoc_L (++)). simpl.
    by rewrite <- !(assoc_L (++)).
Qed.

End StringFacts.

(** ** Normalising a reply *)

Section Normalisation.

Import InteractiveAgent Spec.

Lemma allWs_toLowerCase s : allWs (toLowerCase s) <-> allWs s.
Proof.
  unfold allWs, toLowerCase. rewrite Forall_fmap.
  apply Forall_iff. intros c. simpl. by rewrite isWhiteSpace_toLowerCaseUnit.
Qed.

(** Peel the image of one code unit off [y :: k = f <$> l]. *)
Local Ltac peel H c r Hc :=
  symmetry in H; simpl in H;
  apply fmap_cons_inv in H as (c & r & Hc & H & ->); symmetry in Hc.

Lemma includes_yes reply :
  includes (js "yes") (trim (toLowerCase reply)) = true <-> containsYes reply.
Proof.
  change (js "yes") with (121 :: [101] ++ [115]).
  rewrite includes_trim by done. rewrite includes_spec. unfold toLowerCase. split.
  - intros (pre & post & H).
    apply fmap_app_inv in H as (r1 & r2 & -> & H & ->).
    peel H c1 r3 H1. peel H c2 r4 H2. peel H c3 r5 H3.
    rewrite toLowerCaseUnit_eq in H1, H2, H3 by lia.
    exists r1, c1, c2, c3, r5. split; [done|]. simpl in *. lia.
  - intros (pre & c1 & c2 & c3 & post & -> & H1 & H2 & H3).
    exists (toLowerCaseUnit <$> pre), (toLowerCaseUnit <$> post).
    rewrite fmap_app. simpl. f_equal.
    assert (toLowerCaseUnit c1 = 121) as -> by (apply toLowerCaseUnit_eq; simpl; lia).
    assert (toLowerCaseUnit c2 = 101) as -> by (apply toLowerCaseUnit_eq; simpl; lia).
    assert (toLowerCaseUnit c3 = 115) as -> by (apply toLowerCaseUnit_eq; simpl; lia).
    done.
Qed.

Lemma includes_thumbsUp reply :
  includes thumbsUp (trim (toLowerCase reply)) = true <-> containsThumbsUp reply.
Proof.
  change thumbsUp with (55357 :: [] ++ [56397]).
  rewrite includes_trim by done. rewrite includes_spec. unfold toLowerCase. split.
  - intros (pre & post & H).
    apply fmap_app_inv in H as (r1 & r2 & -> & H & ->).
    peel H c1 r3 H1. peel H c2 r4 H2.
    rewrite toLowerCaseUnit_high in H1, H2 by lia. subst c1 c2.
    by exists r1, r4.
  - intros (pre & post & ->).
    exists (toLowerCaseUnit <$> pre), (toLowerCaseUnit <$> post).
    by rewrite !fmap_app.
Qed.

Lemma token_y reply :
  strictEq (trim (toLowerCase reply)) (js "y") = true <-> isTokenY reply.
Proof.
  unfold strictEq. rewrite bool_decide_eq_true. change (js "y") with [121]. split.
  - intros H.
    destruct (trim_decompose (toLowerCase reply)) as (ws1 & ws2 & E & H1 & H2).
    rewrite H in E. unfold toLowerCase in E.
    apply fmap_app_inv in E as (r1 & r2 & -> & E & ->).
    peel E c r3 Hc. subst ws2.
    rewrite toLowerCaseUnit_eq in Hc by lia.
    exists r1, c, r3. repeat split; [by apply allWs_toLowerCase..|]. simpl in Hc. lia.
  - intros (ws1 & c & ws2 & -> & H1 & H2 & Hc).
    unfold toLowerCase. rewrite fmap_app, fmap_cons.
    assert (toLowerCaseUnit c = 121) as -> by (apply toLowerCaseUnit_eq; simpl; lia).
    apply trim_single; [by apply allWs_toLowerCase..|done].
Qed.

(** C2. A reply is normalised to true exactly when, letter case aside,
    it contains "yes", or is the single token "y" (white space around it
    aside), or it contains the thumbs-up sign; every other reply is
    normalised to false. *)
Theorem isYes_affirmative reply :
  (isYes reply = true <-> affirmative reply)
  /\ (isYes reply = false <-> ~ affirmative reply).
Proof.
  assert (isYes reply = true <-> affirmative reply) as H.
  { unfold isYes, affirmative.
    rewrite !orb_true_iff, includes_yes, includes_thumbsUp, token_y. tauto. }
  split; [done|]. rewrite <- H. by destruct (isYes reply).
Qed.

End Normalisation.

(** ** The response collector *)

Section Collector.

Import InteractiveAgent Spec.

Variable groupChatId : jsstring.

Implicit Types (st : Collected) (m : Message) (msgs : list Message)
  (w : World) (rounds : list Round).

Lemma mapSet_fresh {V} (k : jsstring) (v : V) (l : list (jsstring * V)) :
  k ∉ l.*1 -> mapSet k v l = l ++ [(k, v)].
Proof.
  induction l as [|[k' v'] l IH]; simpl; [done|].
  rewrite not_elem_of_cons. intros [Hne Hl].
  rewrite bool_decide_eq_false_2 by done. by rewrite IH.
Qed.

Lemma consistent_noResponses : consistent noResponses.
Proof. split; [set_solver | constructor]. Qed.

Lemma onNewMessage_cases st m :
  consistent st ->
  (accepted groupChatId m = true /\ (senderKey m ∉ (responses st).*1)
   /\ responses (onNewMessage groupChatId st m)
      = responses st ++ [(senderKey m, text m)]
   /\ consistent (onNewMessage groupChatId st m))
  \/ ((accepted groupChatId m = false \/ senderKey m ∈ (responses st).*1)
      /\ onNewMessage groupChatId st m = st).
Proof.
  intros [Hset Hnd]. unfold onNewMessage, accepted.
  destruct (strictEq (chatId m) groupChatId); simpl; [|by right; split; [left|]].
  destruct (isFromMe m); simpl; [by right; split; [left|]|].
  case_bool_decide as Hin.
  - right. split; [right; by apply Hset | done].
  - assert (senderKey m ∉ (responses st).*1) as Hfresh by (by rewrite <- Hset).
    left. simpl. rewrite mapSet_fresh by done.
    split; [done|]. split; [done|]. split; [done|]. split; simpl.
    + intros s. rewrite fmap_app, elem_of_app, elem_of_union, elem_of_singleton.
      simpl. rewrite list_elem_of_singleton, Hset. tauto.
    + rewrite fmap_app. simpl. apply NoDup_app.
      split; [done|]. split; [|apply NoDup_singleton].
      intros x Hx ->%list_elem_of_singleton. done.
Qed.

Lemma foldl_onNewMessage st msgs :
  consistent st ->
  let st' := foldl (onNewMessage groupChatId) st msgs in
  consistent st'
  /\ forall s t,
       (s, t) ∈ responses st'
       <-> (s, t) ∈ responses st
           \/ ((s ∉ (responses st).*1) /\ firstFrom groupChatId s msgs = Some t).
Proof.
  revert st. induction msgs as [|m msgs IH]; intros st Hst; simpl.
  - split; [done | intuition congruence].
  - destruct (onNewMessage_cases st m Hst)
      as [(Hacc & Hfresh & Hresp & Hst1) | [Hskip ->]].
    + destruct (IH _ Hst1) as [Hinv Hin]. split; [done|].
      intros s t. rewrite Hin, Hresp, Hacc, fmap_app, !elem_of_app. simpl.
      rewrite !list_elem_of_singleton.
      case_bool_decide as Hk; simpl.
      * subst s. split.
        -- intros [[H | [= <-]] | [H _]]; [by left | by right | tauto].
        -- intros [H | [_ [= <-]]]; [by left; left | by left; right].
      * split.
        -- intros [[H | [= ? ?]] | [H ?]]; [by left | congruence | right; tauto].
        -- intros [H | [H ?]]; [by left; left | right].
           split; [|done]. intros [? | ?]; [tauto | congruence].
    + destruct (IH _ Hst) as [Hinv Hin]. split; [done|].
      intros s t. rewrite Hin. destruct Hskip as [-> | Hseen]; simpl; [done|].
      destruct (accepted groupChatId m); simpl; [|done].
      case_bool_decide as Hk; [|done]. subst s. tauto.
Qed.

(** The responses collected from [msgs]: one per sender, the sender's
    first message. *)
Lemma collect_spec msgs :
  NoDup (responses (collect groupChatId msgs)).*1
  /\ forall s t, (s, t) ∈ responses (collect groupChatId msgs)
                 <-> firstFrom groupChatId s msgs = Some t.
Proof.
  destruct (foldl_onNewMessage noResponses msgs consistent_noResponses) as [[_ Hnd] Hin].
  split; [done|]. intros s t. unfold collect. rewrite Hin. simpl.
  rewrite elem_of_nil. split; [tauto | intros H; right; split; [apply not_elem_of_nil | done]].
Qed.

Lemma collect_consistent msgs : consistent (collect groupChatId msgs).
Proof. apply (foldl_onNewMessage noResponses msgs consistent_noResponses). Qed.

Lemma foldl_quiet st msgs :
  forallb (fun m => negb (accepted groupChatId m)) msgs = true ->
  foldl (onNewMessage groupChatId) st msgs = st.
Proof.
  induction msgs as [|m msgs IH]; simpl; [done|].
  rewrite andb_true_iff, negb_true_iff. intros [Hm Hrest].
  assert (onNewMessage groupChatId st m = st) as ->; [|by apply IH].
  unfold onNewMessage. unfold accepted in Hm.
  destruct (strictEq (chatId m) groupChatId); simpl in *; [|done].
  by rewrite negb_false_iff in Hm; rewrite Hm.
Qed.

Lemma firstFrom_exists msgs :
  forallb (fun m => negb (accepted groupChatId m)) msgs = false ->
  exists s t, firstFrom groupChatId s msgs = Some t.
Proof.
  induction msgs as [|m msgs IH]; simpl; [done|].
  destruct (accepted groupChatId m) eqn:Hm; simpl.
  - intros _. exists (senderKey m), (text m). by rewrite bool_decide_eq_true_2.
  - intros (s & t & H)%IH. by exists s, t.
Qed.

(** Some message taken into account means a non-empty set of senders. *)
Lemma collect_size msgs :
  forallb (fun m => negb (accepted groupChatId m)) msgs = false ->
  (size (respondedParticipants (collect groupChatId msgs)) <? 1)%nat = false.
Proof.
  intros (s & t & H)%firstFrom_exists.
  apply (collect_spec msgs) in H.
  assert (s ∈ respondedParticipants (collect groupChatId msgs)) as Hs.
  { apply (collect_consistent msgs). apply list_elem_of_fmap. by exists (s, t). }
  apply Nat.ltb_ge.
  destruct (size (respondedParticipants (collect groupChatId msgs))) eqn:E; [|lia].
  apply size_empty_inv in E. by apply E in Hs.
Qed.

Lemma noResponses_size : (size (respondedParticipants noResponses) <? 1)%nat = true.
Proof. change (respondedParticipants noResponses) with (∅ : gset jsstring). by rewrite size_empty. Qed.

(** The first round that brings a message or passes the deadline ends
    the wait. *)
Lemma poll_first_terminal timeout startTime w pre r post :
  watching w = true ->
  Forall (fun q => quiet groupChatId q = true /\ (clock q - startTime <= timeout)%Z) pre ->
  quiet groupChatId r = false \/ (clock r - startTime > timeout)%Z ->
  poll groupChatId timeout startTime noResponses w (pre ++ r :: post)
  = Returned (collect groupChatId (arrivals r)) (advance r post w).
Proof.
  intros Hw Hpre Hr. induction Hpre as [|q pre [Hq Hclock] _ IH]; simpl.
  - unfold deliver. rewrite Hw. fold (collect groupChatId (arrivals r)).
    destruct (quiet groupChatId r) eqn:Hq.
    + destruct Hr as [? | Hr]; [done|].
      unfold collect. rewrite foldl_quiet by done. rewrite noResponses_size.
      destruct (Z.gtb_spec (clock r - startTime) timeout); [done | lia].
    + by rewrite collect_size.
  - unfold deliver. rewrite Hw, foldl_quiet by done. rewrite noResponses_size.
    destruct (Z.gtb_spec (clock q - startTime) timeout); [lia | done].
Qed.

Lemma ends_false timeout startTime r :
  ends groupChatId timeout startTime r = false
  <-> quiet groupChatId r = true /\ (clock r - startTime <= timeout)%Z.
Proof.
  unfold ends. rewrite orb_false_iff, negb_false_iff.
  destruct (Z.gtb_spec (clock r - startTime) timeout); intuition (try lia; try done).
Qed.

Lemma ends_true timeout startTime r :
  ends groupChatId timeout startTime r = true
  <-> quiet groupChatId r = false \/ (clock r - startTime > timeout)%Z.
Proof.
  unfold ends. rewrite orb_true_iff, negb_true_iff.
  destruct (Z.gtb_spec (clock r - startTime) timeout); intuition (try lia; try done).
Qed.

(** Rounds without a message that counts leave nothing behind. *)
Lemma collect_after_quiet pre q :
  Forall (fun r => quiet groupChatId r = true) pre ->
  collect groupChatId (delivered (pre ++ [q])) = collect groupChatId (arrivals q).
Proof.
  intros Hpre. unfold collect, delivered.
  rewrite fmap_app, concat_app, foldl_app. simpl. rewrite app_nil_r. f_equal.
  induction Hpre as [|r pre Hr _ IH]; simpl; [done|].
  rewrite foldl_app, (foldl_quiet noResponses (arrivals r) Hr). exact IH.
Qed.

(** The wait ends with the first round that ends it, and returns what
    the callback collected up to there. *)
Lemma waitForResponses_stage timeout w pre q rest :
  pending w = pre ++ q :: rest ->
  Forall (fun r => ends groupChatId timeout (now w) r = false) pre ->
  ends groupChatId timeout (now w) q = true ->
  waitForResponses groupChatId timeout w
  = Returned (responses (collect groupChatId (delivered (pre ++ [q]))))
             (afterStage w q rest).
Proof.
  intros Hp Hpre Hq.
  unfold waitForResponses, mbind, M_bind, startWatching, stopWatching, mret, M_ret.
  simpl. rewrite Hp.
  rewrite (poll_first_terminal timeout (now w) (setWatching true w) pre q rest);
    [|done| |by apply ends_true].
  - rewrite collect_after_quiet; [done|].
    eapply Forall_impl; [exact Hpre|]. by intros r [? _]%ends_false.
  - eapply Forall_impl; [exact Hpre|]. by intros r ?%ends_false.
Qed.

(** The key a message is recorded under is the sender it is tagged with. *)
Lemma senderKey_tag m : senderKey m = tag m.
Proof.
  unfold senderKey, tag, reported, orElse.
  destruct (sender m) as [[|c s]|]; destruct (handle m) as [[|c' h]|]; done.
Qed.

Lemma firstFrom_tagged s msgs :
  firstFrom groupChatId s msgs = firstTagged groupChatId s msgs.
Proof.
  induction msgs as [|m msgs IH]; simpl; [done|]. by rewrite senderKey_tag, IH.
Qed.

Lemma firstTagged_sender s msgs :
  (exists t, firstTagged groupChatId s msgs = Some t)
  <-> exists m, m ∈ msgs /\ accepted groupChatId m = true /\ tag m = s.
Proof.
  induction msgs as [|m msgs IH]; simpl.
  - split; [by intros [t ?] | by intros (m & ?%elem_of_nil & _)].
  - destruct (accepted groupChatId m) eqn:Hacc; simpl.
    + case_bool_decide as Htag.
      * split; [intros _; exists m; split; [left|done] | intros _; by eexists].
      * rewrite IH. split.
        -- intros (m' & Hin & ?). exists m'. split; [by right | done].
        -- intros (m' & [-> | Hin]%elem_of_cons & Hacc' & Htag'); [done|].
           by exists m'.
    + rewrite IH. split.
      * intros (m' & Hin & ?). exists m'. split; [by right | done].
      * intros (m' & [-> | Hin]%elem_of_cons & Hacc' & Htag'); [congruence|].
        by exists m'.
Qed.

(** When the channel reports the sender of every message that counts,
    the tag is that sender. *)
Lemma firstTagged_reported s msgs :
  allReported groupChatId msgs ->
  firstTagged groupChatId s msgs = firstReported groupChatId s msgs.
Proof.
  induction 1 as [|m msgs Hm _ IH]; simpl; [done|]. rewrite IH.
  destruct (accepted groupChatId m); simpl; [|done].
  destruct (Hm eq_refl) as [r Hr]. unfold tag. rewrite Hr.
  assert (bool_decide (r = s) = bool_decide (Some r = Some s)) as ->; [|done].
  apply bool_decide_ext. split; [by intros -> | by intros [= ->]].
Qed.

Lemma collect_senders msgs :
  length (responses (collect groupChatId msgs)) = size (senders groupChatId msgs).
Proof.
  destruct (collect_spec msgs) as [Hnd Hin].
  rewrite <- (length_fmap fst), <- (size_list_to_set (C:=gset jsstring)) by done.
  f_equal. apply set_eq. intros s. unfold senders.
  rewrite !elem_of_list_to_set, !list_elem_of_fmap. split.
  - intros ([s' t] & -> & Hst). simpl.
    apply Hin in Hst. rewrite firstFrom_tagged in Hst.
    destruct (proj1 (firstTagged_sender s' msgs) (ex_intro _ t Hst)) as (m & Hm & Hacc & Htag).
    exists m. split; [done|]. by apply list_elem_of_filter.
  - intros (m & -> & [Hacc Hm]%list_elem_of_filter).
    destruct (proj2 (firstTagged_sender (tag m) msgs)) as [t Ht]; [by exists m|].
    exists (tag m, t). split; [done|]. apply Hin. by rewrite firstFrom_tagged.
Qed.

(** C3. Over the messages handed to the collector during one stage,
    [waitForResponses] returns one response per distinct sender, as
    many responses as there are senders, each the first message of its
    sender, whatever the order of arrival and however many messages the
    sender wrote afterwards.  The sender of a message is the id the
    channel reports in its [sender] field; a message without one goes
    under its handle, or under 'user'.  So when every message that
    counts carries a sender id, the responses are the first messages by
    [sender] field. *)
Theorem collect_first_per_sender timeout w pre q rest :
  pending w = pre ++ q :: rest ->
  Forall (fun r => ends groupChatId timeout (now w) r = false) pre ->
  ends groupChatId timeout (now w) q = true ->
  let msgs := delivered (pre ++ [q]) in
  exists res,
    waitForResponses groupChatId timeout w = Returned res (afterStage w q rest)
    /\ NoDup res.*1
    /\ length res = size (senders groupChatId msgs)
    /\ (forall s t, (s, t) ∈ res <-> firstTagged groupChatId s msgs = Some t)
    /\ (allReported groupChatId msgs ->
        forall s t, (s, t) ∈ res <-> firstReported groupChatId s msgs = Some t).
Proof.
  intros Hp Hpre Hq msgs. subst msgs.
  eexists. split; [by apply waitForResponses_stage|].
  destruct (collect_spec (delivered (pre ++ [q]))) as [Hnd Hin].
  split; [done|]. split; [apply collect_senders|]. split.
  - intros s t. by rewrite Hin, firstFrom_tagged.
  - intros Hall s t. by rewrite Hin, firstFrom_tagged, firstTagged_reported.
Qed.

(** C4, as the code has it.  The threshold is fixed at one response:
    [waitForResponses] returns at the first test of its loop at which a
    response is recorded or the timeout has elapsed, whichever comes
    first, and what it returns then is the normal result, the responses
    recorded so far, which on a timeout are none. *)
Theorem collect_returns_at_first_response_or_timeout timeout w pre r post :
  pending w = pre ++ r :: post ->
  Forall (fun q => quiet groupChatId q = true /\ (clock q - now w <= timeout)%Z) pre ->
  quiet groupChatId r = false \/ (clock r - now w > timeout)%Z ->
  waitForResponses groupChatId timeout w
  = Returned (responses (collect groupChatId (arrivals r)))
             {| watching := false; outbox := outbox w; sendOutcomes := sendOutcomes w;
                now := clock r; pending := post |}
  /\ (quiet groupChatId r = true -> responses (collect groupChatId (arrivals r)) = []).
Proof.
  intros Hp Hpre Hr. split.
  - unfold waitForResponses, mbind, M_bind, startWatching, stopWatching, mret, M_ret.
    simpl. rewrite Hp.
    by rewrite (poll_first_terminal timeout (now w) (setWatching true w) pre r post).
  - intros Hq. unfold collect, quiet in *. by rewrite foldl_quiet.
Qed.

(** C7. [waitForResponses] leaves the watcher stopped, and of two
    stages run one after the other the second returns what the messages
    handed to it alone give: each of its responses is the sender's
    first message of the second stage, whatever the sender wrote in the
    first. *)
Theorem stages_do_not_leak t1 t2 w pre1 q1 pre2 q2 rest :
  pending w = pre1 ++ q1 :: pre2 ++ q2 :: rest ->
  Forall (fun r => ends groupChatId t1 (now w) r = false) pre1 ->
  ends groupChatId t1 (now w) q1 = true ->
  Forall (fun r => ends groupChatId t2 (clock q1) r = false) pre2 ->
  ends groupChatId t2 (clock q1) q2 = true ->
  let w1 := afterStage w q1 (pre2 ++ q2 :: rest) in
  let w2 := afterStage w1 q2 rest in
  let r1 := responses (collect groupChatId (delivered (pre1 ++ [q1]))) in
  let r2 := responses (collect groupChatId (delivered (pre2 ++ [q2]))) in
  waitForResponses groupChatId t1 w = Returned r1 w1
  /\ watching w1 = false
  /\ waitForResponses groupChatId t2 w1 = Returned r2 w2
  /\ watching w2 = false
  /\ forall s t,
       (s, t) ∈ r2 <-> firstFrom groupChatId s (delivered (pre2 ++ [q2])) = Some t.
Proof.
  intros Hp H1 Hq1 H2 Hq2 w1 w2 r1 r2.
  split; [by apply waitForResponses_stage|]. split; [done|].
  split; [by apply waitForResponses_stage|]. split; [done|].
  apply collect_spec.
Qed.

Lemma senderKey_anonymous m : anonymous m -> senderKey m = js "user".
Proof. intros [Hs Hh]. unfold senderKey. by rewrite Hs, Hh. Qed.

Lemma collect_anonymous msgs :
  Forall anonymous msgs ->
  responses (collect groupChatId msgs)
  = match firstAccepted groupChatId msgs with
    | Some m => [(js "user", text m)]
    | None => []
    end.
Proof.
  intros Hall. unfold collect.
  induction Hall as [|m msgs Hm Hall IH]; simpl; [done|].
  destruct (onNewMessage_cases noResponses m consistent_noResponses)
    as [(Hacc & _ & Hresp & Hst1) | [[Hrej | Hin] Hst1]].
  - rewrite Hacc. clear IH.
    assert (forall st, responses st = [(js "user", text m)] -> consistent st ->
                       responses (foldl (onNewMessage groupChatId) st msgs)
                       = [(js "user", text m)]) as Hkeep.
    { clear Hst1 Hresp. induction Hall as [|m' msgs Hm' Hall IH]; intros st Hst Hc; simpl; [done|].
      destruct (onNewMessage_cases st m' Hc) as [(_ & Hfresh & _) | [_ ->]]; [|by apply IH].
      exfalso. apply Hfresh. rewrite Hst, (senderKey_anonymous m') by done.
      simpl. apply list_elem_of_singleton. done. }
    apply Hkeep; [|done]. by rewrite Hresp, (senderKey_anonymous m).
  - by rewrite Hst1, Hrej.
  - by apply elem_of_nil in Hin.
Qed.

(** C9. A message with neither sender nor handle is recorded under the
    key 'user'.  So in every stage the entry under 'user' is the first
    message that falls under that key, and when the messages of the
    stage are all without sender and handle the stage returns at most
    one response, the first of them. *)
Theorem anonymous_messages_share_one_key timeout w pre q rest :
  pending w = pre ++ q :: rest ->
  Forall (fun r => ends groupChatId timeout (now w) r = false) pre ->
  ends groupChatId timeout (now w) q = true ->
  exists res,
    waitForResponses groupChatId timeout w = Returned res (afterStage w q rest)
    /\ (forall m, anonymous m -> senderKey m = js "user")
    /\ (forall t, (js "user", t) ∈ res
                  <-> firstFrom groupChatId (js "user") (delivered (pre ++ [q])) = Some t)
    /\ (Forall anonymous (delivered (pre ++ [q])) ->
        res = match firstAccepted groupChatId (delivered (pre ++ [q])) with
              | Some m => [(js "user", text m)]
              | None => []
              end).
Proof.
  intros Hp Hpre Hq. eexists. split; [by apply waitForResponses_stage|].
  split; [apply senderKey_anonymous|].
  split; [intros t; apply collect_spec | apply collect_anonymous].
Qed.

End Collector.

(** ** The collector on the sample sessions *)

Section CollectorSamples.

Import InteractiveAgent Spec Samples.

(** Two people answer, one of them twice: two responses, each the
    first message of its [sender]. *)
Lemma collect_first_per_sender_witness :
  let q := {| arrivals := [says "p1" "2"; says "p2" "3"; says "p1" "1"]; clock := 1013%Z |} in
  let late := [ {| arrivals := [says "p3" "1"]; clock := 2015%Z |} ] in
  let msgs := delivered ([ {| arrivals := []; clock := 12%Z |} ] ++ [q]) in
  exists res,
    waitForResponses chat 180000 twoAnswer = Returned res (afterStage twoAnswer q late)
    /\ NoDup res.*1
    /\ length res = size (senders chat msgs)
    /\ (forall s t, (s, t) ∈ res <-> firstTagged chat s msgs = Some t)
    /\ (forall s t, (s, t) ∈ res <-> firstReported chat s msgs = Some t)
    /\ res = [(js "p1", js "2"); (js "p2", js "3")].
Proof.
  intros q late msgs.
  destruct (collect_first_per_sender chat 180000 twoAnswer
              [ {| arrivals := []; clock := 12%Z |} ] q late)
    as (res & Hrun & Hnd & Hlen & Htag & Hrep).
  - reflexivity.
  - repeat constructor.
  - vm_compute. reflexivity.
  - exists res. split; [exact Hrun|]. split; [exact Hnd|]. split; [exact Hlen|].
    split; [exact Htag|]. split.
    + apply Hrep. repeat constructor; intros _; eexists; reflexivity.
    + assert (waitForResponses chat 180000 twoAnswer
              = Returned [(js "p1", js "2"); (js "p2", js "3")] (afterStage twoAnswer q late))
        as Hval by (vm_compute; reflexivity).
      rewrite Hval in Hrun. by injection Hrun as <-.
Defined.

(** With two responses asked for, the stage is over after the first. *)
Lemma collect_minResponses_counterexample : ~ returnsAtThreshold chat 2.
Proof.
  intros H.
  destruct (H 180000%Z oneThenOne [(js "p1", js "1")]
              (idleAt 1001 (drop 1 (pending oneThenOne)))) as [Hn | Ht].
  - vm_compute. reflexivity.
  - simpl in Hn. lia.
  - simpl in Ht. lia.
Qed.

Lemma collect_returns_at_first_response_or_timeout_witness :
  waitForResponses chat 5000 silence
  = Returned (responses (collect chat []))
             {| watching := false; outbox := []; sendOutcomes := []; now := 5003%Z;
                pending := [ {| arrivals := [says "p1" "late"]; clock := 6004%Z |} ] |}
  /\ (quiet chat {| arrivals := []; clock := 5003%Z |} = true ->
      responses (collect chat []) = []).
Proof.
  apply (collect_returns_at_first_response_or_timeout chat 5000 silence
           [ {| arrivals := []; clock := 1%Z |}; {| arrivals := []; clock := 2502%Z |} ]
           {| arrivals := []; clock := 5003%Z |}
           [ {| arrivals := [says "p1" "late"]; clock := 6004%Z |} ]).
  - reflexivity.
  - repeat constructor; simpl; lia.
  - right. simpl. lia.
Defined.

Lemma stages_do_not_leak_witness :
  let q1 := {| arrivals := [says "p1" "first"]; clock := 1001%Z |} in
  let q2 := {| arrivals := [says "p1" "second"; says "p2" "other"]; clock := 9001%Z |} in
  let w1 := afterStage twoStages q1 ([] ++ q2 :: []) in
  let w2 := afterStage w1 q2 [] in
  let r1 := responses (collect chat (delivered ([] ++ [q1]))) in
  let r2 := responses (collect chat (delivered ([] ++ [q2]))) in
  waitForResponses chat 180000 twoStages = Returned r1 w1
  /\ watching w1 = false
  /\ waitForResponses chat 180000 w1 = Returned r2 w2
  /\ watching w2 = false
  /\ forall s t, (s, t) ∈ r2 <-> firstFrom chat s (delivered ([] ++ [q2])) = Some t.
Proof.
  apply (stages_do_not_leak chat 180000 180000 twoStages []
           {| arrivals := [says "p1" "first"]; clock := 1001%Z |} []
           {| arrivals := [says "p1" "second"; says "p2" "other"]; clock := 9001%Z |} []).
  - reflexivity.
  - constructor.
  - vm_compute. reflexivity.
  - constructor.
  - vm_compute. reflexivity.
Defined.

Lemma anonymous_messages_share_one_key_witness :
  exists res,
    waitForResponses chat 180000 unsignedOnly
    = Returned res (afterStage unsignedOnly
                      {| arrivals := [unsigned "one"; unsigned "two"]; clock := 1001%Z |}
                      [ {| arrivals := [unsigned "three"]; clock := 2001%Z |} ])
    /\ res = [(js "user", js "one")].
Proof.
  destruct (anonymous_messages_share_one_key chat 180000 unsignedOnly []
              {| arrivals := [unsigned "one"; unsigned "two"]; clock := 1001%Z |}
              [ {| arrivals := [unsigned "three"]; clock := 2001%Z |} ])
    as (res & Hrun & _ & _ & Hone).
  - reflexivity.
  - constructor.
  - vm_compute. reflexivity.
  - exists res. split; [exact Hrun|]. apply Hone.
    repeat constructor.
Defined.

End CollectorSamples.

(** ** The confirmation resolver *)

Section Confirmation.

Import InteractiveAgent Spec Samples.

Lemma tally_from (acc : list (jsstring * bool)) (n : nat)
    (responses : list (jsstring * jsstring)) :
  NoDup (acc.*1 ++ responses.*1) ->
  foldl (fun acc entry =>
           let '(person, response) := entry in
           let isYes := isYes response in
           (mapSet person isYes (fst acc),
            if isYes then (snd acc + 1)%Z else snd acc))
        (acc, Z.of_nat n) responses
  = (acc ++ ((fun entry => (entry.1, isYes entry.2)) <$> responses),
     Z.of_nat (n + length (filter (fun entry => isYes entry.2 = true) responses))).
Proof.
  revert acc n. induction responses as [|[person response] rest IH]; intros acc n Hnd.
  - simpl. by rewrite app_nil_r, Nat.add_0_r.
  - simpl in *. rewrite mapSet_fresh.
    2:{ apply NoDup_app in Hnd as (_ & Hdis & _). intros Hin.
        apply (Hdis _ Hin). by left. }
    assert (NoDup ((acc ++ [(person, isYes response)]).*1 ++ rest.*1)) as Hnd'.
    { rewrite fmap_app, <- (assoc_L (++)). exact Hnd. }
    rewrite filter_cons. case_decide as E; simpl in E.
    + rewrite E in *.
      replace (Z.of_nat n + 1)%Z with (Z.of_nat (S n)) by lia.
      rewrite (IH _ (S n) Hnd'). rewrite <- (assoc_L (++)). simpl.
      f_equal. f_equal. lia.
    + apply not_true_is_false in E. rewrite E in *.
      rewrite (IH _ n Hnd'). by rewrite <- (assoc_L (++)).
Qed.

(** The map of booleans and the count that [askConfirmation] builds. *)
Lemma tally_spec (responses : list (jsstring * jsstring)) :
  NoDup responses.*1 ->
  tally responses
  = ((fun entry => (entry.1, isYes entry.2)) <$> responses,
     Z.of_nat (yesVotes ((fun entry => (entry.1, isYes entry.2)) <$> responses))).
Proof.
  intros Hnd. unfold tally.
  etrans; [exact (tally_from [] 0 responses Hnd)|]. simpl.
  f_equal. f_equal. unfold yesVotes.
  clear Hnd. induction responses as [|[person response] rest IH]; [done|].
  rewrite fmap_cons, !filter_cons. simpl.
  destruct (isYes response); simpl; by rewrite IH.
Qed.

(** [Math.ceil(n / 2) <= y] says that [y] is at least half of [n]. *)
Lemma Math_ceil_half (n y : Z) :
  (Math_ceil (inject_Z n / 2) <= y)%Z <-> (n <= 2 * y)%Z.
Proof.
  unfold Math_ceil, Qceiling, Qfloor. simpl.
  change (Z.pos (1 * 2)) with 2%Z. rewrite Z.mul_1_r.
  pose proof (Z.div_mod (- n) 2 ltac:(lia)) as Hd.
  pose proof (Z.mod_pos_bound (- n) 2 ltac:(lia)) as Hm.
  lia.
Qed.

Lemma decide_confirmation_spec participants (responses : list (jsstring * jsstring)) :
  NoDup responses.*1 ->
  let c := decide_confirmation participants responses in
  confirmations c = (fun entry => (entry.1, isYes entry.2)) <$> responses
  /\ (confirmed c = true
      <-> (Math_ceil (inject_Z (Z.of_nat (length participants)) / 2)
           <= Z.of_nat (yesVotes (confirmations c)))%Z).
Proof.
  intros Hnd. unfold decide_confirmation. rewrite (tally_spec responses Hnd). simpl.
  split; [done|]. apply Z.leb_le.
Qed.

Lemma send_accepted chat text w :
  head (sendOutcomes w) <> Some false -> send chat text w = Returned tt (afterSend w chat text).
Proof.
  unfold send, afterSend. destruct (sendOutcomes w) as [|[] rest]; simpl; done.
Qed.

Lemma askConfirmation_stage groupChatId participants question w pre q rest :
  head (sendOutcomes w) <> Some false ->
  pending w = pre ++ q :: rest ->
  Forall (fun r => ends groupChatId 180000 (now w) r = false) pre ->
  ends groupChatId 180000 (now w) q = true ->
  askConfirmation groupChatId participants question w
  = Returned (decide_confirmation participants
                (responses (collect groupChatId (delivered (pre ++ [q])))))
             (afterStage
                (afterSend w groupChatId (question ++ [10; 10] ++ js "Reply with YES or NO"))
                q rest).
Proof.
  intros Hsend Hp Hpre Hq. unfold askConfirmation, mbind, M_bind, mret, M_ret.
  rewrite send_accepted by done.
  by rewrite (waitForResponses_stage groupChatId 180000 _ pre q rest).
Qed.

(** C1. [askConfirmation] answers confirmed exactly when the number of
    replies normalised to true is at least [ceil(n / 2)], that is at
    least half of [n], where [n] is the size of the roster and not the
    number of respondents.  With a roster of four, yes and no give not
    confirmed, yes and yes give confirmed. *)
Theorem confirm_majority_of_roster :
  (forall groupChatId participants question w pre q rest,
      head (sendOutcomes w) <> Some false ->
      pending w = pre ++ q :: rest ->
      Forall (fun r => ends groupChatId 180000 (now w) r = false) pre ->
      ends groupChatId 180000 (now w) q = true ->
      exists c w',
        askConfirmation groupChatId participants question w = Returned c w'
        /\ (confirmed c = true
            <-> (Math_ceil (inject_Z (Z.of_nat (length participants)) / 2)
                 <= Z.of_nat (yesVotes (confirmations c)))%Z)
        /\ (confirmed c = true
            <-> (length participants <= 2 * yesVotes (confirmations c))%nat)
        /\ confirmations c
           = (fun entry => (entry.1, isYes entry.2))
               <$> responses (collect groupChatId (delivered (pre ++ [q]))))
  /\ askConfirmation chat roster question yesAndNo
     = Returned yesAndNoResult (asked 1001)
  /\ askConfirmation chat roster question yesAndYes
     = Returned yesAndYesResult (asked 1001).
Proof.
  split; [|split; vm_compute; reflexivity].
  intros groupChatId participants question w pre q rest Hsend Hp Hpre Hq.
  eexists _, _. split; [by apply askConfirmation_stage|].
  destruct (decide_confirmation_spec participants
              (responses (collect groupChatId (delivered (pre ++ [q])))))
    as [Hmap Hc]; [apply collect_spec|].
  split; [done|]. split; [|done]. rewrite Hc, Math_ceil_half. lia.
Qed.

Lemma confirm_majority_of_roster_witness :
  exists c w',
    askConfirmation chat roster question yesAndNo = Returned c w'
    /\ (confirmed c = true
        <-> (Math_ceil (inject_Z (Z.of_nat (length roster)) / 2)
             <= Z.of_nat (yesVotes (confirmations c)))%Z)
    /\ (confirmed c = true <-> (length roster <= 2 * yesVotes (confirmations c))%nat)
    /\ confirmations c
       = (fun entry => (entry.1, isYes entry.2))
           <$> responses (collect chat (delivered ([] ++ pending yesAndNo))).
Proof.
  apply (proj1 confirm_majority_of_roster chat roster question yesAndNo []
           {| arrivals := [says "p1" "yes"; says "p2" "no"]; clock := 1001%Z |} []).
  - simpl. discriminate.
  - reflexivity.
  - constructor.
  - vm_compute. reflexivity.
Defined.

End Confirmation.

(** ** The date choice *)

Section DateChoice.

Import Planner Spec Samples.

Lemma choices_validValues dateChoices :
  choices dateChoices = Some <$> validValues dateChoices.
Proof.
  unfold choices, validValues. induction (values dateChoices) as [|c cs IH]; [done|].
  rewrite fmap_cons, filter_cons. simpl.
  destruct (parseInt (trim c)) as [v|]; simpl.
  - unfold dateOptionCount. destruct ((1 <=? v)%Z && (v <=? 3)%Z); simpl; by rewrite IH.
  - done.
Qed.

Lemma validValues_in_range dateChoices :
  Forall (fun v => (1 <= v <= dateOptionCount)%Z) (validValues dateChoices).
Proof.
  unfold validValues. induction (values dateChoices) as [|c cs IH]; simpl; [constructor|].
  destruct (parseInt (trim c)) as [v|]; simpl; [|done].
  destruct ((1 <=? v)%Z && (v <=? dateOptionCount)%Z) eqn:E; simpl; [|done].
  constructor; [|done]. apply andb_true_iff in E as [?%Z.leb_le ?%Z.leb_le]. done.
Qed.

Lemma foldl_jsAdd (a : Z) (vs : list Z) :
  foldl jsAdd (Some a) (Some <$> vs) = Some (a + sumZ vs)%Z.
Proof.
  revert a. induction vs as [|v vs IH]; intros a; simpl.
  - by rewrite Z.add_0_r.
  - rewrite IH. f_equal. lia.
Qed.

(** [Math.round] of a quotient of integers, in integers. *)
Lemma Math_round_quotient (s : Z) (n : positive) :
  Math_round (inject_Z s / inject_Z (Z.pos n)) = ((2 * s + Z.pos n) / (2 * Z.pos n))%Z.
Proof.
  unfold Math_round, Qfloor. simpl. f_equal; lia.
Qed.

Lemma sumZ_bounds (vs : list Z) (lo hi : Z) :
  Forall (fun v => (lo <= v <= hi)%Z) vs ->
  (lo * Z.of_nat (length vs) <= sumZ vs <= hi * Z.of_nat (length vs))%Z.
Proof. induction 1 as [|v vs Hv _ IH]; simpl length; simpl sumZ; lia. Qed.

Lemma chosenIndex_spec dateChoices :
  match validValues dateChoices with
  | [] => chosenIndex dateChoices = Some 0%Z
  | v :: vs =>
      exists k, chosenIndex dateChoices = Some (k - 1)%Z
                /\ roundOfMean (v :: vs) k /\ (1 <= k <= dateOptionCount)%Z
  end.
Proof.
  unfold chosenIndex. rewrite choices_validValues.
  pose proof (validValues_in_range dateChoices) as Hrange.
  destruct (validValues dateChoices) as [|v vs]; [done|].
  apply sumZ_bounds in Hrange. unfold dateOptionCount in *.
  rewrite length_fmap. simpl length in *. simpl sumZ in Hrange.
  change (0 <? S (length vs))%nat with true. cbv iota.
  rewrite fmap_cons. simpl reduce. rewrite foldl_jsAdd.
  destruct (Z.of_nat (S (length vs))) as [|n|n] eqn:En; [lia| |lia].
  rewrite Math_round_quotient.
  exists ((2 * (v + sumZ vs) + Z.pos n) / (2 * Z.pos n))%Z. split; [done|].
  unfold roundOfMean. simpl length. simpl sumZ. rewrite En.
  pose proof (Z.div_mod (2 * (v + sumZ vs) + Z.pos n) (2 * Z.pos n) ltac:(lia)) as Hd.
  pose proof (Z.mod_pos_bound (2 * (v + sumZ vs) + Z.pos n) (2 * Z.pos n) ltac:(lia)) as Hm.
  set (k := ((2 * (v + sumZ vs) + Z.pos n) / (2 * Z.pos n))%Z) in *.
  split; [nia|]. split.
  - apply Z.div_le_lower_bound; lia.
  - cut (k < 4)%Z; [lia|]. apply Z.div_lt_upper_bound; lia.
Qed.

(** C6. The date choice parses each reply as an integer, keeps the
    values from 1 to the number of options, and answers the rounded mean
    of the kept values minus one, or index 0 when none is kept.  The
    replies "1", "2", "5", "abc" with three options keep 1 and 2 and
    answer index 1. *)
Theorem date_choice_is_rounded_mean dateChoices :
  choices dateChoices = Some <$> validValues dateChoices
  /\ Forall (fun v => (1 <= v <= dateOptionCount)%Z) (validValues dateChoices)
  /\ match validValues dateChoices with
     | [] => chosenIndex dateChoices = Some 0%Z
     | v :: vs =>
         exists k, chosenIndex dateChoices = Some (k - 1)%Z
                   /\ roundOfMean (v :: vs) k /\ (1 <= k <= dateOptionCount)%Z
     end
  /\ (parseInt (trim (js "5")) = Some 5%Z /\ parseInt (trim (js "abc")) = None
      /\ validValues fourReplies = [1; 2]%Z
      /\ chosenIndex fourReplies = Some 1%Z).
Proof.
  split; [apply choices_validValues|].
  split; [apply validValues_in_range|].
  split; [apply chosenIndex_spec|].
  repeat split; vm_compute; reflexivity.
Qed.

(** C10. There are replies, all within the range, for which the date
    choice answers an option that nobody chose: "1" and "3" with three
    options give index 1, the second option. *)
Theorem rounded_mean_picks_unchosen_option :
  validValues oneAndThree = [1; 3]%Z
  /\ length (validValues oneAndThree) = length oneAndThree
  /\ chosenIndex oneAndThree = Some 1%Z
  /\ forall v, v ∈ validValues oneAndThree -> (v - 1)%Z <> 1%Z.
Proof.
  assert (validValues oneAndThree = [1; 3]%Z) as E by (vm_compute; reflexivity).
  split; [done|]. split; [by rewrite E|]. split; [vm_compute; reflexivity|].
  rewrite E. intros v Hv. rewrite !elem_of_cons, elem_of_nil in Hv. lia.
Qed.

End DateChoice.

(** ** Numbers *)

Section Doubles.

Import SpecFloat JsDouble DoubleNotions.

Local Open Scope Z_scope.

Lemma iter_pos_invariant {A} (P : A -> Prop) (f : A -> A) :
  (forall x, P x -> P (f x)) -> forall n x, P x -> P (SpecFloat.iter_pos f n x).
Proof.
  intros Hf. induction n as [n IH | n IH |]; intros x Hx; simpl; auto.
Qed.

Lemma shr_1_nonneg mrs : 0 <= shr_m mrs -> 0 <= shr_m (shr_1 mrs).
Proof.
  destruct mrs as [m r s]. simpl. destruct m as [|[p|p|]|[p|p|]]; simpl; lia.
Qed.

Lemma shr_nonneg mrs e n : 0 <= shr_m mrs -> 0 <= shr_m (fst (shr mrs e n)).
Proof.
  intros H. destruct n as [|p|p]; simpl; [done| |done].
  by apply iter_pos_invariant; [apply shr_1_nonneg|].
Qed.

Lemma shr_fexp_nonneg m e l : 0 <= m -> 0 <= shr_m (fst (shr_fexp prec emax m e l)).
Proof.
  intros H. unfold shr_fexp. apply shr_nonneg.
  by destruct l as [|[]].
Qed.

Lemma round_nearest_even_nonneg m l : 0 <= m -> 0 <= round_nearest_even m l.
Proof.
  intros H. destruct l as [|[]]; simpl; try lia. destruct (Z.even m); lia.
Qed.

(** Rounding keeps the sign and never gives [NaN]. *)
Lemma binary_round_aux_signed sx mx ex lx :
  0 <= mx -> signed sx (binary_round_aux prec emax sx mx ex lx).
Proof.
  intros H. unfold binary_round_aux.
  pose proof (shr_fexp_nonneg mx ex lx H) as H1.
  destruct (shr_fexp prec emax mx ex lx) as [mrs' e']. simpl in H1.
  pose proof (shr_fexp_nonneg _ e' loc_Exact
                (round_nearest_even_nonneg _ (loc_of_shr_record mrs') H1)) as H2.
  destruct (shr_fexp prec emax _ e' loc_Exact) as [mrs'' e'']. simpl in H2.
  destruct (shr_m mrs'') as [|m|m]; simpl; [done| |lia].
  by destruct (e'' <=? emax - prec).
Qed.

Lemma ofZ_signed n : n <> 0 -> signed (n <? 0) (ofZ n).
Proof.
  intros Hn. unfold ofZ, binary_normalize, binary_round.
  destruct n as [|p|p]; [done| |].
  - destruct (shl_align _ _ _) as [mz ez]. by apply binary_round_aux_signed.
  - destruct (shl_align _ _ _) as [mz ez]. by apply binary_round_aux_signed.
Qed.

Lemma digits2_pos_bounds p :
  2 ^ (Zpos (digits2_pos p) - 1) <= Zpos p < 2 ^ Zpos (digits2_pos p).
Proof.
  induction p as [p IH | p IH |]; simpl digits2_pos.
  - rewrite Pos2Z.inj_succ.
    replace (Z.succ (Zpos (digits2_pos p)) - 1) with (Z.succ (Zpos (digits2_pos p) - 1)) by lia.
    rewrite !Z.pow_succ_r by lia. lia.
  - rewrite Pos2Z.inj_succ.
    replace (Z.succ (Zpos (digits2_pos p)) - 1) with (Z.succ (Zpos (digits2_pos p) - 1)) by lia.
    rewrite !Z.pow_succ_r by lia. lia.
  - simpl. lia.
Qed.

Lemma digits2_pos_mono p q :
  (p <= q)%positive -> Zpos (digits2_pos p) <= Zpos (digits2_pos q).
Proof.
  intros Hpq. destruct (digits2_pos_bounds p) as [Hp _].
  destruct (digits2_pos_bounds q) as [_ Hq].
  destruct (Z.le_gt_cases (Zpos (digits2_pos p)) (Zpos (digits2_pos q))) as [|Hgt]; [done|].
  assert (2 ^ Zpos (digits2_pos q) <= 2 ^ (Zpos (digits2_pos p) - 1)); [|lia].
  apply Z.pow_le_mono_r; lia.
Qed.

Lemma digits_small n : 0 < n < 2 ^ 53 -> Zpos (digits2_pos (Z.to_pos n)) <= 53.
Proof.
  intros Hn. destruct n as [|p|p]; [lia| |lia]. simpl.
  destruct (digits2_pos_bounds p) as [Hlo _].
  destruct (Z.le_gt_cases (Zpos (digits2_pos p)) 53) as [|Hgt]; [done|].
  assert (2 ^ 53 <= 2 ^ (Zpos (digits2_pos p) - 1)); [|lia].
  apply Z.pow_le_mono_r; lia.
Qed.

Lemma iter_xO p k :
  Zpos (Pos.iter xO p k) = Zpos p * 2 ^ Zpos k
  /\ digits2_pos (Pos.iter xO p k) = (digits2_pos p + k)%positive.
Proof.
  induction k as [|k IH] using Pos.peano_ind.
  - simpl. split; lia.
  - rewrite Pos.iter_succ. destruct IH as [IH1 IH2]. split.
    + rewrite Pos2Z.inj_xO, IH1, Pos2Z.inj_succ, Z.pow_succ_r by lia. lia.
    + simpl. rewrite IH2. lia.
Qed.

Lemma aligned_spec p :
  Zpos (digits2_pos p) <= 53 ->
  Zpos (aligned p) = Zpos p * 2 ^ (53 - Zpos (digits2_pos p))
  /\ Zpos (digits2_pos (aligned p)) = 53.
Proof.
  intros Hd. unfold aligned.
  destruct (53 - Zpos (digits2_pos p)) as [|k|k] eqn:E; [| |lia].
  - split; [simpl; lia | lia].
  - destruct (iter_xO p k) as [H1 H2]. split; [done|]. rewrite H2. lia.
Qed.

(** An integer of at most 53 bits is a Number as it is: its bits are
    the mantissa, nothing is rounded away. *)
Lemma ofZ_pos p :
  Zpos (digits2_pos p) <= 53 ->
  ofZ (Zpos p) = S754_finite false (aligned p) (Zpos (digits2_pos p) - 53).
Proof.
  intros Hd. destruct (aligned_spec p Hd) as [_ Hdig].
  pose proof (Pos2Z.is_pos (digits2_pos p)) as Hpos.
  unfold ofZ, binary_normalize, binary_round, shl_align, fexp, emin, prec, emax.
  rewrite Z.add_0_r.
  replace (Z.max (Zpos (digits2_pos p) - 53) (3 - 1024 - 53))
    with (Zpos (digits2_pos p) - 53) by lia.
  assert ((match Zpos (digits2_pos p) - 53 - 0 with
           | Zneg d => (Pos.iter xO p d, Zpos (digits2_pos p) - 53)
           | _ => (p, 0)
           end) = (aligned p, Zpos (digits2_pos p) - 53)) as ->.
  { unfold aligned.
    destruct (Zpos (digits2_pos p) - 53 - 0) as [|k|k] eqn:E; [| lia |].
    - replace (53 - Zpos (digits2_pos p)) with 0 by lia. f_equal. lia.
    - replace (53 - Zpos (digits2_pos p)) with (Zpos k) by lia. done. }
  unfold binary_round_aux, shr_fexp, fexp, emin. simpl Zdigits2. rewrite Hdig.
  replace (Z.max (53 + (Zpos (digits2_pos p) - 53) - 53) (3 - 1024 - 53)
           - (Zpos (digits2_pos p) - 53)) with 0 by lia.
  simpl. rewrite Hdig.
  replace (Z.max (53 + (Zpos (digits2_pos p) - 53) - 53) (3 - 1024 - 53)
           - (Zpos (digits2_pos p) - 53)) with 0 by lia.
  simpl. by rewrite (proj2 (Z.leb_le _ _)) by lia.
Qed.

Lemma ofNat_count (n : nat) : Z.of_nat n < 2 ^ 53 -> isCount (ofNat n).
Proof.
  intros Hn. unfold isCount, ofNat.
  destruct (Z.of_nat n) as [|p|p] eqn:E; [by left| |lia].
  right. eexists _, _. apply ofZ_pos. apply (digits_small (Zpos p)). lia.
Qed.

Lemma ofNat_positive (n : nat) :
  0 < Z.of_nat n < 2 ^ 53 -> exists m e, ofNat n = S754_finite false m e.
Proof.
  intros Hn. unfold ofNat.
  destruct (Z.of_nat n) as [|p|p] eqn:E; [lia| |lia].
  eexists _, _. apply ofZ_pos. apply (digits_small (Zpos p)). lia.
Qed.

(** The Numbers of two integers compare as the integers do. *)
Lemma jsGe_ofZ_pos p q :
  Zpos p < 2 ^ 53 -> Zpos q < 2 ^ 53 ->
  jsGe (ofZ (Zpos p)) (ofZ (Zpos q)) = (Zpos q <=? Zpos p).
Proof.
  intros Hp Hq.
  pose proof (digits_small (Zpos p) ltac:(lia)) as Hdp.
  pose proof (digits_small (Zpos q) ltac:(lia)) as Hdq. simpl in Hdp, Hdq.
  rewrite !ofZ_pos by done. unfold jsGe, SFleb, SFcompare.
  destruct (aligned_spec p Hdp) as [Hap _]. destruct (aligned_spec q Hdq) as [Haq _].
  destruct (digits2_pos_bounds p) as [Hp1 Hp2]. destruct (digits2_pos_bounds q) as [Hq1 Hq2].
  destruct (Z.compare_spec (Zpos (digits2_pos q) - 53) (Zpos (digits2_pos p) - 53)) as [E|E|E].
  - assert (Zpos (digits2_pos q) = Zpos (digits2_pos p)) as Ed by lia.
    rewrite Ed in Haq.
    assert (0 < 2 ^ (53 - Zpos (digits2_pos p))) as Hpow by (apply Z.pow_pos_nonneg; lia).
    change (Pos.compare_cont Eq (aligned q) (aligned p))
      with (Zpos (aligned q) ?= Zpos (aligned p)).
    destruct (Z.compare_spec (Zpos (aligned q)) (Zpos (aligned p))) as [C|C|C];
      symmetry; [apply Z.leb_le | apply Z.leb_le | apply Z.leb_gt]; nia.
  - symmetry. apply Z.leb_le.
    destruct (Z.le_gt_cases (Zpos q) (Zpos p)) as [|Hgt]; [done|].
    pose proof (digits2_pos_mono p q ltac:(lia)). lia.
  - symmetry. apply Z.leb_gt.
    destruct (Z.le_gt_cases (Zpos q) (Zpos p)) as [Hle|]; [|done].
    pose proof (digits2_pos_mono q p ltac:(lia)). lia.
Qed.

Lemma jsGe_ofNat (n k : nat) :
  Z.of_nat n < 2 ^ 53 -> Z.of_nat k < 2 ^ 53 ->
  jsGe (ofNat n) (ofNat k) = (k <=? n)%nat.
Proof.
  intros Hn Hk. unfold ofNat.
  destruct (Z.of_nat n) as [|p|p] eqn:En; destruct (Z.of_nat k) as [|q|q] eqn:Ek; try lia.
  - assert (n = 0%nat) as -> by lia. assert (k = 0%nat) as -> by lia. done.
  - assert (n = 0%nat) as -> by lia. rewrite ofZ_pos by (apply (digits_small (Zpos q)); lia).
    simpl. symmetry. apply Nat.leb_gt. lia.
  - assert (k = 0%nat) as -> by lia. rewrite ofZ_pos by (apply (digits_small (Zpos p)); lia).
    done.
  - rewrite jsGe_ofZ_pos by lia. rewrite <- En, <- Ek.
    destruct (Nat.leb_spec k n); [apply Z.leb_le | apply Z.leb_gt]; lia.
Qed.

Lemma notPositive_cases x :
  notPositive x = true
  <-> match x with
      | S754_zero _ => True
      | S754_finite s _ _ | S754_infinity s => s = true
      | S754_nan => False
      end.
Proof.
  unfold notPositive, jsGe, SFleb, SFcompare.
  destruct x as [s|s| |s m e]; try destruct s; simpl; intuition congruence.
Qed.

(** A positive finite Number times one that is not positive is not
    positive. *)
Lemma jsMul_notPositive m e x :
  notPositive x = true -> notPositive (jsMul (S754_finite false m e) x) = true.
Proof.
  rewrite !notPositive_cases. destruct x as [s|s| |s m' e']; simpl; try done.
  intros ->. simpl.
  pose proof (binary_round_aux_signed true (Zpos (m * m')) (e + e') loc_Exact ltac:(lia)) as H.
  by destruct (binary_round_aux prec emax true (Zpos (m * m')) (e + e') loc_Exact).
Qed.

Lemma Math_ceil_notPositive x :
  notPositive x = true -> notPositive (JsDouble.Math_ceil x) = true.
Proof.
  rewrite !notPositive_cases. destruct x as [s|s| |s m e]; try done.
  intros ->. unfold JsDouble.Math_ceil, cond_Zopp.
  destruct (Z.leb_spec 0 e) as [|He]; [done|]. rewrite Z.opp_involutive.
  assert (0 <= Zpos m / 2 ^ (- e)) as Hq
    by (apply Z.div_pos; [lia | apply Z.pow_pos_nonneg; lia]).
  destruct (- (Zpos m / 2 ^ (- e))) as [|c|c] eqn:E; [done | lia |].
  pose proof (ofZ_signed (Zneg c) ltac:(lia)) as H.
  change (signed true (ofZ (Zneg c))) in H.
  by destruct (ofZ (Zneg c)).
Qed.

(** A count is at least any Number that is not positive. *)
Lemma jsGe_count x y : isCount x -> notPositive y = true -> jsGe x y = true.
Proof.
  rewrite notPositive_cases. unfold jsGe, SFleb, SFcompare.
  intros [-> | (m & e & ->)]; destruct y as [s|s| |s m' e']; try done; by intros ->.
Qed.

(** The default threshold [0.5] is one half, exactly. *)
Lemma half_value : literal 5 10 = S754_finite false 4503599627370496 (-53).
Proof. vm_compute. reflexivity. Qed.

(** Halving an integer of at most 53 bits loses nothing. *)
Lemma jsMul_half p :
  Zpos (digits2_pos p) <= 53 ->
  jsMul (ofZ (Zpos p)) (literal 5 10)
  = S754_finite false (aligned p) (Zpos (digits2_pos p) - 54).
Proof.
  intros Hd. rewrite ofZ_pos, half_value by done.
  destruct (aligned_spec p Hd) as [_ Hdig].
  pose proof (Pos2Z.is_pos (digits2_pos p)) as Hpos.
  unfold jsMul, SFmul. simpl xorb. rewrite Pos.mul_comm.
  change (4503599627370496 * aligned p)%positive with (Pos.iter xO (aligned p) 52).
  unfold binary_round_aux, shr_fexp, fexp, emin, prec, emax.
  cbn [Zdigits2 shr_record_of_loc].
  rewrite (proj2 (iter_xO (aligned p) 52)), Pos2Z.inj_add, Hdig.
  replace (Z.max (53 + 52 + (Zpos (digits2_pos p) - 53 + -53) - 53) (3 - 1024 - 53)
           - (Zpos (digits2_pos p) - 53 + -53)) with 52 by lia.
  cbn [shr]. 
  change (SpecFloat.iter_pos shr_1 52
            {| shr_m := Zpos (Pos.iter xO (aligned p) 52); shr_r := false; shr_s := false |})
    with {| shr_m := Zpos (aligned p); shr_r := false; shr_s := false |}.
  cbn [shr_m loc_of_shr_record round_nearest_even Zdigits2 shr_record_of_loc].
  rewrite Hdig.
  replace (Z.max (53 + (Zpos (digits2_pos p) - 53 + -53 + 52) - 53) (3 - 1024 - 53)
           - (Zpos (digits2_pos p) - 53 + -53 + 52)) with 0 by lia.
  cbn [shr shr_m].
  rewrite (proj2 (Z.leb_le _ _)) by lia. f_equal. lia.
Qed.

Lemma Math_ceil_half_of p :
  Zpos (digits2_pos p) <= 53 ->
  JsDouble.Math_ceil (jsMul (ofZ (Zpos p)) (literal 5 10)) = ofZ ((Zpos p + 1) / 2).
Proof.
  intros Hd. rewrite jsMul_half by done.
  destruct (aligned_spec p Hd) as [Ha _].
  pose proof (Pos2Z.is_pos (digits2_pos p)) as Hpos.
  unfold JsDouble.Math_ceil, cond_Zopp.
  rewrite (proj2 (Z.leb_gt _ _)) by lia.
  assert (- (- Zpos (aligned p) / 2 ^ (- (Zpos (digits2_pos p) - 54))) = (Zpos p + 1) / 2) as ->.
  { rewrite Ha.
    replace (- (Zpos (digits2_pos p) - 54)) with (Z.succ (53 - Zpos (digits2_pos p))) by lia.
    rewrite Z.pow_succ_r by lia.
    assert (0 < 2 ^ (53 - Zpos (digits2_pos p))) as Hpow by (apply Z.pow_pos_nonneg; lia).
    rewrite <- Z.mul_opp_l, Z.div_mul_cancel_r by lia.
    pose proof (Z.div_mod (- Zpos p) 2 ltac:(lia)).
    pose proof (Z.mod_pos_bound (- Zpos p) 2 ltac:(lia)).
    pose proof (Z.div_mod (Zpos p + 1) 2 ltac:(lia)).
    pose proof (Z.mod_pos_bound (Zpos p + 1) 2 ltac:(lia)).
    lia. }
  assert (0 < (Zpos p + 1) / 2) as Hq.
  { apply Z.div_str_pos. lia. }
  by destruct ((Zpos p + 1) / 2).
Qed.

(** Half of a roster, rounded up, is what the default threshold asks for. *)
Lemma minRequired_half (n : nat) :
  Z.of_nat n < 2 ^ 53 ->
  JsDouble.Math_ceil (jsMul (ofNat n) (literal 5 10)) = ofNat (Nat.div2 (S n)).
Proof.
  intros Hn. unfold ofNat. destruct (Z.of_nat n) as [|p|p] eqn:E; [| |lia].
  - assert (n = 0%nat) as -> by lia. vm_compute. reflexivity.
  - rewrite Math_ceil_half_of by (apply (digits_small (Zpos p)); lia).
    f_equal. rewrite Nat.div2_div, Nat2Z.inj_div, Nat2Z.inj_succ, E. done.
Qed.

(** The product with [0.28] is rounded upwards and the one with [0.1]
    downwards before [Math.ceil] sees them; the default threshold asks
    for half; no product with [NaN] is reached by a count, and nothing
    times an infinity is [NaN]. *)
Lemma minRequired_as_rounded :
  JsDouble.Math_ceil (jsMul (ofNat 25) (literal 28 100)) = ofNat 8
  /\ JsDouble.Math_ceil (jsMul (ofNat 10) (literal 1 10)) = ofNat 1
  /\ JsDouble.Math_ceil (jsMul (ofNat 4) (literal 5 10)) = ofNat 2
  /\ JsDouble.Math_ceil (jsMul (ofNat 3) (literal 5 10)) = ofNat 2
  /\ JsDouble.Math_ceil (jsMul (ofNat 0) (S754_infinity false)) = S754_nan
  /\ forall x, jsGe x S754_nan = false.
Proof.
  repeat (split; [vm_compute; reflexivity|]).
  intros x. unfold jsGe, SFleb. by destruct x.
Qed.

End Doubles.

(** ** The connection tracker *)

Section Connections.

Import CalendarOAuth Spec Samples.

Implicit Types (m : Manager) (req : Request) (conns : gmap jsstring CalendarConnection).

Lemma serve_connections m req :
  connections (serve m req)
  = match granted req, req with
    | Some participant, GetCallback _ _ (Some tokens) at_ _ =>
        recordConnection participant tokens at_ (connections m)
    | _, _ => connections m
    end.
Proof.
  unfold serve. destruct req as [|email|code state [tokens|] at_ sent|]; simpl; try done.
  - by destruct (truthy email).
  - destruct (truthy code); [|done]. destruct (truthy state); [|done].
    destruct (truthy (groupChatId m)); simpl; [by destruct sent | done].
  - destruct (truthy code); [|done]. by destruct (truthy state).
Qed.

Lemma serve_connectedSet m req :
  connectedSet (serve m req)
  = match granted req with
    | Some participant => {[participant]} ∪ connectedSet m
    | None => connectedSet m
    end.
Proof.
  unfold connectedSet. rewrite serve_connections.
  destruct req as [|email|code state [tokens|] at_ sent|]; simpl; try done.
  destruct (truthy code); [|done]. destruct (truthy state); [|done].
  unfold recordConnection. by rewrite dom_insert_L.
Qed.

Lemma step_connectedSet m op : connectedSet m ⊆ connectedSet (step m op).
Proof.
  destruct op; simpl; try done.
  rewrite serve_connectedSet. destruct (granted req); set_solver.
Qed.

Lemma run_connectedSet m ops : connectedSet m ⊆ connectedSet (foldl step m ops).
Proof.
  revert m. induction ops as [|op ops IH]; intros m; simpl; [done|].
  etrans; [apply (step_connectedSet m op) | apply IH].
Qed.

(** C8. A participant goes from unconnected to connected and never
    back.  Recording a connection is an upsert: recording the same
    connection twice is recording it once, a later record for the same
    participant replaces the earlier one and leaves one record for the
    participant, and no request and no method of the manager takes a
    participant out of the connected set. *)
Theorem connections_only_grow :
  (forall participant tokens at_ conns,
      recordConnection participant tokens at_
        (recordConnection participant tokens at_ conns)
      = recordConnection participant tokens at_ conns)
  /\ (forall participant tokens1 at1 tokens2 at2 conns,
         let once := recordConnection participant tokens1 at1 conns in
         let twice := recordConnection participant tokens2 at2 once in
         twice = recordConnection participant tokens2 at2 conns
         /\ size twice = size once
         /\ twice !! participant
            = Some {| email := participant; accessToken := access_token tokens2;
                      refreshToken := refresh_token tokens2; connectedAt := at2 |})
  /\ (forall m c code s state tokens at_ sent,
         let m' := serve m (GetCallback (Some (c :: code)) (Some (s :: state))
                                        (Some tokens) at_ sent) in
         connections m' = recordConnection (s :: state) tokens at_ (connections m)
         /\ connectedSet m' = {[s :: state]} ∪ connectedSet m)
  /\ (forall m op, connectedSet m ⊆ connectedSet (step m op))
  /\ (forall m ops, connectedSet m ⊆ connectedSet (foldl step m ops)).
Proof.
  split; [|split; [|split; [|split]]].
  - intros. unfold recordConnection. apply insert_insert_eq.
  - intros participant tokens1 at1 tokens2 at2 conns once twice.
    assert (twice = recordConnection participant tokens2 at2 conns) as E.
    { unfold twice, once, recordConnection. apply insert_insert_eq. }
    split; [done|]. split.
    + apply (f_equal dom) in E. unfold recordConnection in E.
      rewrite dom_insert_L in E.
      rewrite <- !size_dom, E. unfold once, recordConnection.
      by rewrite dom_insert_L.
    + unfold twice, recordConnection. apply lookup_insert_eq.
  - intros m c code s state tokens at_ sent m'. unfold m'.
    split; [by rewrite serve_connections | by rewrite serve_connectedSet].
  - apply step_connectedSet.
  - apply run_connectedSet.
Qed.

Lemma serve_all_connectedSet m (reqs : list Request) :
  connectedSet (foldl serve m reqs) = list_to_set (omap granted reqs) ∪ connectedSet m.
Proof.
  revert m. induction reqs as [|req reqs IH]; intros m; simpl.
  - by rewrite (left_id_L ∅ (∪)).
  - rewrite IH, serve_connectedSet. destruct (granted req) as [participant|]; simpl; [|done].
    by rewrite (assoc_L (∪)), (comm_L (∪) _ {[participant]}).
Qed.

Lemma connected_connectedSet roster m m' :
  connectedSet m = connectedSet m' -> connected roster m = connected roster m'.
Proof.
  intros E. unfold connected. apply list_filter_iff. intros participant.
  unfold connectedSet in E. by rewrite <- !elem_of_dom, E.
Qed.

(** The requests of a round count the same in any order. *)
Lemma connected_order roster m (reqs reqs' : list Request) :
  reqs ≡ₚ reqs' ->
  connected roster (foldl serve m reqs) = connected roster (foldl serve m reqs').
Proof.
  intros Hp. apply connected_connectedSet. rewrite !serve_all_connectedSet.
  f_equal. apply leibniz_equiv. by rewrite Hp.
Qed.

(** The requests of a round connect the same participants in any order. *)
Lemma connectedSet_order m (reqs reqs' : list Request) :
  reqs ≡ₚ reqs' -> connectedSet (foldl serve m reqs) = connectedSet (foldl serve m reqs').
Proof.
  intros Hp. rewrite !serve_all_connectedSet. f_equal. apply leibniz_equiv. by rewrite Hp.
Qed.

(** What the loop counts: the entries of the roster with a record. *)
Lemma connected_length roster m :
  length (connected roster m) = connectedOfRoster roster (connectedSet m).
Proof.
  unfold connected, connectedSet. induction roster as [|participant rest IH]; simpl; [done|].
  rewrite filter_cons.
  destruct (decide (participant ∈ dom (connections m))) as [Hin | Hout].
  - rewrite decide_True by (by apply elem_of_dom). simpl. by rewrite IH.
  - rewrite decide_False by (by rewrite <- elem_of_dom). by rewrite IH.
Qed.

Lemma connectedOfRoster_le (roster : list jsstring) (who : gset jsstring) :
  (connectedOfRoster roster who <= length roster)%nat.
Proof.
  induction roster as [|participant rest IH]; simpl; [done|].
  destruct (decide (participant ∈ who)); lia.
Qed.

(** Of a roster without repetition, the connected entries are the
    connected participants that are of the roster. *)
Lemma connectedOfRoster_size (roster : list jsstring) (who : gset jsstring) :
  NoDup roster -> connectedOfRoster roster who = size (who ∩ list_to_set roster).
Proof.
  induction 1 as [|participant rest Hnew _ IH]; simpl.
  - by rewrite (right_absorb_L ∅ (∩)), size_empty.
  - rewrite IH. destruct (decide (participant ∈ who)) as [Hin | Hout].
    + assert (who ∩ ({[participant]} ∪ list_to_set rest)
              = {[participant]} ∪ who ∩ list_to_set rest) as ->.
      { apply set_eq. intros x.
        rewrite !elem_of_intersection, !elem_of_union, elem_of_intersection,
          elem_of_singleton.
        split; [tauto | intros [-> | ?]; tauto]. }
      assert (({[participant]} : gset jsstring) ## who ∩ list_to_set rest) as Hdisj.
      { intros x ->%elem_of_singleton [_ Hx%elem_of_list_to_set]%elem_of_intersection.
        done. }
      by rewrite (size_union _ _ Hdisj), size_singleton.
    + simpl. f_equal. apply set_eq. intros x.
      rewrite !elem_of_intersection, elem_of_union, elem_of_singleton.
      split; [tauto | intros [? [-> | ?]]; tauto].
Qed.

Lemma pollConnections_settled roster minRequired timeout startTime m clk rounds :
  settled roster minRequired timeout startTime m clk = true ->
  pollConnections roster minRequired timeout startTime m clk rounds
  = Returned (connections m) {| manager := m; time := clk; upcoming := rounds |}.
Proof.
  unfold settled, quorum. rewrite <- connected_length. intros H.
  destruct rounds; simpl;
    destruct (JsDouble.jsGe _ _); try done;
    destruct (clk - startTime >? timeout)%Z; done.
Qed.

Lemma pollConnections_first_settled roster minRequired timeout startTime pre :
  forall m clk post,
    (forall i, (i < length pre)%nat ->
               settled roster minRequired timeout startTime
                       (after m (take i pre)) (clockAfter clk (take i pre)) = false) ->
    settled roster minRequired timeout startTime (after m pre) (clockAfter clk pre) = true ->
    pollConnections roster minRequired timeout startTime m clk (pre ++ post)
    = Returned (connections (after m pre))
               {| manager := after m pre; time := clockAfter clk pre; upcoming := post |}.
Proof.
  induction pre as [|r pre IH]; intros m clk post Hbefore Hthen.
  - by apply pollConnections_settled.
  - pose proof (Hbefore 0%nat ltac:(simpl; lia)) as H0. simpl in H0.
    unfold settled, quorum in H0. rewrite <- connected_length in H0.
    apply orb_false_iff in H0 as [Hcount Hclock].
    simpl. rewrite Hcount, Hclock. apply IH; [|done].
    intros i Hi. apply (Hbefore (S i)). simpl. lia.
Qed.

(** When [minRequired] is the Number of an integer, a quorum is that
    many connected entries of the roster. *)
Lemma quorum_ofNat roster (k : nat) m :
  (Z.of_nat (length roster) < 2 ^ 53)%Z -> (Z.of_nat k < 2 ^ 53)%Z ->
  quorum roster (JsDouble.ofNat k) m = (k <=? connectedOfRoster roster (connectedSet m))%nat.
Proof.
  intros Hn Hk. unfold quorum. apply jsGe_ofNat; [|done].
  pose proof (connectedOfRoster_le roster (connectedSet m)). lia.
Qed.

(** C5, as the code has it.  [waitForConnections] takes
    [minRequired = Math.ceil(roster.length * minThreshold)], a product
    of Numbers, and returns at the first test of its loop at which the
    connected entries of the roster are at least that many or the
    timeout has elapsed, be it with nobody connected.  Only the roster
    is counted: for a roster without repetition the count is the size of
    the connected set met with the roster, and when [minRequired] is the
    Number of an integer [k] the test is [k <= count], which for the
    default threshold [0.5] is half the roster, rounded up; the requests
    of a round count the same in any order.  What it returns is the whole
    connection map of the manager, which holds the record of every
    connected participant of the roster. *)
Theorem waitForConnections_returns_at_quorum_or_timeout
    roster timeout minThreshold s pre post :
  let minRequired :=
    JsDouble.Math_ceil (JsDouble.jsMul (JsDouble.ofNat (length roster)) minThreshold) in
  let m0 := step (manager s) (WaitForConnectionsStarts roster) in
  upcoming s = pre ++ post ->
  (forall i, (i < length pre)%nat ->
             settled roster minRequired timeout (time s)
                     (after m0 (take i pre)) (clockAfter (time s) (take i pre)) = false) ->
  settled roster minRequired timeout (time s) (after m0 pre) (clockAfter (time s) pre)
  = true ->
  waitForConnections roster timeout minThreshold s
  = Returned (connections (after m0 pre))
             {| manager := after m0 pre; time := clockAfter (time s) pre;
                upcoming := post |}
  /\ (forall participant,
         participant ∈ roster -> participant ∈ connectedSet (after m0 pre) ->
         is_Some (connections (after m0 pre) !! participant))
  /\ (NoDup roster ->
      forall m, connectedOfRoster roster (connectedSet m)
                = size (connectedSet m ∩ list_to_set roster))
  /\ (forall (k : nat) m,
         (Z.of_nat (length roster) < 2 ^ 53)%Z -> (Z.of_nat k < 2 ^ 53)%Z ->
         minRequired = JsDouble.ofNat k ->
         quorum roster minRequired m
         = (k <=? connectedOfRoster roster (connectedSet m))%nat)
  /\ (minThreshold = JsDouble.literal 5 10 ->
      (Z.of_nat (length roster) < 2 ^ 53)%Z ->
      forall m,
        quorum roster minRequired m
        = (Nat.div2 (S (length roster)) <=? connectedOfRoster roster (connectedSet m))%nat)
  /\ (forall m reqs reqs',
         reqs ≡ₚ reqs' ->
         connectedSet (foldl serve m reqs) = connectedSet (foldl serve m reqs')).
Proof.
  intros minRequired m0 Hup Hbefore Hthen. split; [|split; [|split; [|split; [|split]]]].
  - unfold waitForConnections. rewrite Hup.
    by apply pollConnections_first_settled.
  - intros participant _ Hin. by apply elem_of_dom.
  - intros Hnd m. by apply connectedOfRoster_size.
  - intros k m Hn Hk ->. by apply quorum_ofNat.
  - intros -> Hn m. unfold minRequired. rewrite minRequired_half by done.
    apply quorum_ofNat; [done|].
    pose proof (Nat.div2_decr (S (length roster)) (length roster) ltac:(lia)). lia.
  - intros m reqs reqs'. apply connectedSet_order.
Qed.

End Connections.

(** ** The tracker on the sample sessions *)

Section ConnectionSamples.

Import CalendarOAuth Spec Samples.

(** Somebody who is not of the roster is in the result. *)
Lemma waitForConnections_roster_only_counterexample : ~ returnsRosterOnly.
Proof.
  intros H.
  assert (exists conns s',
             waitForConnections abcd 600000 half outsiderFirst = Returned conns s'
             /\ conns !! js "z" = Some (record "z" 1500)) as (conns & s' & Hrun & Hz).
  { eexists _, _. split; [vm_compute; reflexivity|]. vm_compute. reflexivity. }
  specialize (H _ _ _ _ _ _ Hrun (js "z")). rewrite Hz in H.
  specialize (H ltac:(eauto)). vm_compute in H.
  repeat (apply elem_of_cons in H as [H | H]; [discriminate|]).
  by apply elem_of_nil in H.
Qed.

(** Of the roster a, b, c, d the default threshold asks for two.  The
    outsider who connects first is not counted: the wait goes on when c
    has connected and ends at the test after a has. *)
Lemma waitForConnections_returns_at_quorum_or_timeout_witness :
  let m0 := step (manager outsiderFirst) (WaitForConnectionsStarts abcd) in
  let pre := take 3 (upcoming outsiderFirst) in
  let post := drop 3 (upcoming outsiderFirst) in
  waitForConnections abcd 600000 half outsiderFirst
  = Returned (connections (after m0 pre))
             {| manager := after m0 pre; time := 6003%Z; upcoming := post |}
  /\ connections (after m0 pre) !! js "z" = Some (record "z" 1500)
  /\ connectedOfRoster abcd (connectedSet (after m0 (take 2 pre))) = 1%nat
  /\ connectedOfRoster abcd (connectedSet (after m0 pre)) = 2%nat.
Proof.
  intros m0 pre post.
  destruct (waitForConnections_returns_at_quorum_or_timeout abcd 600000 half outsiderFirst
              pre post) as [Hrun _].
  - reflexivity.
  - intros i Hi. simpl in Hi.
    destruct i as [|[|[|i]]]; [vm_compute; reflexivity..|lia].
  - vm_compute. reflexivity.
  - split; [exact Hrun|]. repeat split; vm_compute; reflexivity.
Defined.

(** With nobody connected the wait ends at the first test past the
    timeout, and returns the empty map. *)
Lemma waitForConnections_nobody_times_out :
  waitForConnections abcd 6000 half nobody
  = Returned ∅ {| manager := step (manager nobody) (WaitForConnectionsStarts abcd);
                  time := 6003%Z;
                  upcoming := drop 3 (upcoming nobody) |}.
Proof. vm_compute. reflexivity. Qed.

End ConnectionSamples.

(** * Further properties *)

(** ** What the collector records *)

Section CollectorRecords.

Import InteractiveAgent Spec Notions Samples.

Variable groupChatId : jsstring.

Lemma firstFrom_message s t (msgs : list Message) :
  firstFrom groupChatId s msgs = Some t ->
  exists m, m ∈ msgs /\ accepted groupChatId m = true /\ senderKey m = s /\ text m = t.
Proof.
  induction msgs as [|m msgs IH]; simpl; [done|].
  destruct (accepted groupChatId m) eqn:Hacc; simpl.
  - case_bool_decide as Hk.
    + intros [= <-]. exists m. split; [by left | done].
    + intros (m' & Hin & H)%IH. exists m'. split; [by right | done].
  - intros (m' & Hin & H)%IH. exists m'. split; [by right | done].
Qed.

Lemma senderKey_nonempty (m : Message) : senderKey m <> [].
Proof.
  unfold senderKey, orElse.
  destruct (sender m) as [[|c s]|]; destruct (handle m) as [[|d h]|]; done.
Qed.

(** X1. Every response that [waitForResponses] returns is the text of a
    message of the watched chat that the agent did not write itself,
    under a key that is not the empty string. *)
Theorem only_foreign_group_messages_recorded timeout w pre q rest :
  pending w = pre ++ q :: rest ->
  Forall (fun r => ends groupChatId timeout (now w) r = false) pre ->
  ends groupChatId timeout (now w) q = true ->
  exists res,
    waitForResponses groupChatId timeout w = Returned res (afterStage w q rest)
    /\ forall s t,
         (s, t) ∈ res ->
         s <> []
         /\ exists m, m ∈ delivered (pre ++ [q])
                      /\ chatId m = groupChatId /\ isFromMe m = false
                      /\ senderKey m = s /\ text m = t.
Proof.
  intros Hp Hpre Hq. eexists. split; [by apply waitForResponses_stage|].
  intros s t Hin. apply collect_spec in Hin.
  apply firstFrom_message in Hin as (m & Hm & Hacc & <- & <-).
  split; [apply senderKey_nonempty|]. exists m.
  unfold accepted, strictEq in Hacc.
  apply andb_true_iff in Hacc as [Hchat Hme].
  apply bool_decide_eq_true in Hchat. apply negb_true_iff in Hme. done.
Qed.

Lemma firstReplies_ext (seen seen' : list jsstring) (msgs : list Message) :
  (forall x, x ∈ seen <-> x ∈ seen') ->
  firstReplies groupChatId seen msgs = firstReplies groupChatId seen' msgs.
Proof.
  revert seen seen'. induction msgs as [|m msgs IH]; intros seen seen' Hsame; simpl; [done|].
  assert (bool_decide (senderKey m ∉ seen) = bool_decide (senderKey m ∉ seen')) as ->.
  { apply bool_decide_ext. by rewrite Hsame. }
  destruct (accepted groupChatId m && _); [|by apply IH].
  f_equal. apply IH. intros x. rewrite !elem_of_cons, Hsame. done.
Qed.

Lemma foldl_firstReplies (st : Collected) (msgs : list Message) :
  consistent st ->
  responses (foldl (onNewMessage groupChatId) st msgs)
  = responses st ++ firstReplies groupChatId (responses st).*1 msgs.
Proof.
  revert st. induction msgs as [|m msgs IH]; intros st Hst; simpl.
  - by rewrite app_nil_r.
  - destruct (onNewMessage_cases groupChatId st m Hst)
      as [(Hacc & Hfresh & Hresp & Hst1) | [Hskip ->]].
    + rewrite (IH _ Hst1), Hresp, Hacc. simpl.
      rewrite bool_decide_eq_true_2 by done.
      rewrite fmap_app, <- (assoc_L (++)). simpl. f_equal. f_equal.
      apply firstReplies_ext. intros x.
      rewrite elem_of_app, !elem_of_cons, elem_of_nil. tauto.
    + rewrite (IH _ Hst). f_equal.
      destruct Hskip as [-> | Hseen]; simpl; [done|].
      rewrite bool_decide_eq_false_2; [by rewrite andb_false_r|]. tauto.
Qed.

(** X2. The map that [waitForResponses] returns lists the senders in
    the order in which their first messages arrived. *)
Theorem responses_in_order_of_arrival timeout w pre q rest :
  pending w = pre ++ q :: rest ->
  Forall (fun r => ends groupChatId timeout (now w) r = false) pre ->
  ends groupChatId timeout (now w) q = true ->
  waitForResponses groupChatId timeout w
  = Returned (firstReplies groupChatId [] (delivered (pre ++ [q])))
             (afterStage w q rest).
Proof.
  intros Hp Hpre Hq. rewrite (waitForResponses_stage groupChatId timeout w pre q rest) by done.
  f_equal. unfold collect.
  by rewrite (foldl_firstReplies noResponses _ (consistent_noResponses)).
Qed.

End CollectorRecords.

(** ** Asking the group *)

Section Asking.

Import InteractiveAgent Spec Notions Samples MoreSamples.

Lemma send_refused chat text w :
  head (sendOutcomes w) = Some false -> send chat text w = Threw (afterRefusedSend w).
Proof.
  unfold send, afterRefusedSend. destruct (sendOutcomes w) as [|[] rest]; simpl; try done.
Qed.

(** X3. When the transport refuses the question, [askGroupQuestion] and
    [askConfirmation] throw before they watch: nothing is sent, no
    round is waited for, the watcher is left as it was. *)
Theorem refused_send_starts_no_wait groupChatId participants question timeout w :
  head (sendOutcomes w) = Some false ->
  askGroupQuestion groupChatId question timeout w = Threw (afterRefusedSend w)
  /\ askConfirmation groupChatId participants question w = Threw (afterRefusedSend w)
  /\ pending (afterRefusedSend w) = pending w
  /\ outbox (afterRefusedSend w) = outbox w
  /\ watching (afterRefusedSend w) = watching w.
Proof.
  intros H. unfold askGroupQuestion, askConfirmation, mbind, M_bind.
  by rewrite !send_refused.
Qed.

(** X4. [askGroupQuestion] sends the question once, as it is, and
    returns what the wait after it collected. *)
Theorem askGroupQuestion_sends_once groupChatId question timeout w pre q rest :
  head (sendOutcomes w) <> Some false ->
  pending w = pre ++ q :: rest ->
  Forall (fun r => ends groupChatId timeout (now w) r = false) pre ->
  ends groupChatId timeout (now w) q = true ->
  exists w',
    askGroupQuestion groupChatId question timeout w
    = Returned (responses (collect groupChatId (delivered (pre ++ [q])))) w'
    /\ outbox w' = outbox w ++ [(groupChatId, question)]
    /\ pending w' = rest /\ watching w' = false.
Proof.
  intros Hsend Hp Hpre Hq. eexists. split.
  - unfold askGroupQuestion, mbind, M_bind. rewrite send_accepted by done.
    by apply (waitForResponses_stage groupChatId timeout _ pre q rest).
  - done.
Qed.

Lemma yesVotes_le (c : list (jsstring * bool)) : (yesVotes c <= length c)%nat.
Proof. unfold yesVotes. apply length_filter. Qed.

(** X5. When fewer than half of the roster have answered by the time
    the wait ends, [askConfirmation] answers not confirmed, whatever
    the answers are. *)
Theorem few_respondents_cannot_confirm groupChatId participants question w pre q rest :
  head (sendOutcomes w) <> Some false ->
  pending w = pre ++ q :: rest ->
  Forall (fun r => ends groupChatId 180000 (now w) r = false) pre ->
  ends groupChatId 180000 (now w) q = true ->
  (2 * length (responses (collect groupChatId (delivered (pre ++ [q]))))
   < length participants)%nat ->
  exists c w',
    askConfirmation groupChatId participants question w = Returned c w'
    /\ length (confirmations c)
       = length (responses (collect groupChatId (delivered (pre ++ [q]))))
    /\ confirmed c = false.
Proof.
  intros Hsend Hp Hpre Hq Hfew. eexists _, _.
  split; [by apply askConfirmation_stage|].
  destruct (decide_confirmation_spec participants
              (responses (collect groupChatId (delivered (pre ++ [q])))))
    as [Hmap Hc]; [apply collect_spec|].
  split; [by rewrite Hmap, length_fmap|].
  apply not_true_is_false. rewrite Hc, Math_ceil_half.
  pose proof (yesVotes_le
                (confirmations (decide_confirmation participants
                   (responses (collect groupChatId (delivered (pre ++ [q]))))))) as Hle.
  rewrite Hmap, length_fmap in Hle. rewrite Hmap. lia.
Qed.

(** X6. When the three minutes pass without an answer,
    [askConfirmation] returns no verdicts, and it answers confirmed
    exactly when the roster is empty. *)
Theorem silence_confirms_only_empty_roster groupChatId participants question w pre q rest :
  head (sendOutcomes w) <> Some false ->
  pending w = pre ++ q :: rest ->
  Forall (fun r => ends groupChatId 180000 (now w) r = false) pre ->
  quiet groupChatId q = true ->
  (clock q - now w > 180000)%Z ->
  exists c w',
    askConfirmation groupChatId participants question w = Returned c w'
    /\ confirmations c = []
    /\ (confirmed c = true <-> participants = []).
Proof.
  intros Hsend Hp Hpre Hquiet Hlate.
  assert (ends groupChatId 180000 (now w) q = true) as Hq.
  { apply ends_true. by right. }
  assert (responses (collect groupChatId (delivered (pre ++ [q]))) = []) as Hnone.
  { rewrite collect_after_quiet.
    - unfold collect, quiet in *. by rewrite foldl_quiet.
    - eapply Forall_impl; [exact Hpre|]. by intros r [? _]%ends_false. }
  eexists _, _. split; [by apply askConfirmation_stage|].
  rewrite Hnone.
  destruct (decide_confirmation_spec participants []) as [Hmap Hc]; [constructor|].
  split; [done|]. rewrite Hc, Hmap, Math_ceil_half. simpl.
  destruct participants; simpl; split; try done; lia.
Qed.

Lemma only_foreign_group_messages_recorded_witness :
  exists res,
    waitForResponses chat 180000 twoAnswer
    = Returned res (afterStage twoAnswer
                      {| arrivals := [says "p1" "2"; says "p2" "3"; says "p1" "1"];
                         clock := 1013%Z |}
                      [ {| arrivals := [says "p3" "1"]; clock := 2015%Z |} ])
    /\ forall s t,
         (s, t) ∈ res ->
         s <> []
         /\ exists m,
              m ∈ delivered ([ {| arrivals := []; clock := 12%Z |} ]
                             ++ [ {| arrivals := [says "p1" "2"; says "p2" "3"; says "p1" "1"];
                                     clock := 1013%Z |} ])
              /\ chatId m = chat /\ isFromMe m = false
              /\ senderKey m = s /\ text m = t.
Proof.
  apply (only_foreign_group_messages_recorded chat 180000 twoAnswer
           [ {| arrivals := []; clock := 12%Z |} ]
           {| arrivals := [says "p1" "2"; says "p2" "3"; says "p1" "1"]; clock := 1013%Z |}
           [ {| arrivals := [says "p3" "1"]; clock := 2015%Z |} ]).
  - reflexivity.
  - repeat constructor.
  - vm_compute. reflexivity.
Defined.

Lemma responses_in_order_of_arrival_witness :
  waitForResponses chat 180000 twoAnswer
  = Returned (firstReplies chat []
                (delivered ([ {| arrivals := []; clock := 12%Z |} ]
                            ++ [ {| arrivals := [says "p1" "2"; says "p2" "3"; says "p1" "1"];
                                    clock := 1013%Z |} ])))
             (afterStage twoAnswer
                {| arrivals := [says "p1" "2"; says "p2" "3"; says "p1" "1"];
                   clock := 1013%Z |}
                [ {| arrivals := [says "p3" "1"]; clock := 2015%Z |} ]).
Proof.
  apply (responses_in_order_of_arrival chat 180000 twoAnswer
           [ {| arrivals := []; clock := 12%Z |} ]
           {| arrivals := [says "p1" "2"; says "p2" "3"; says "p1" "1"]; clock := 1013%Z |}
           [ {| arrivals := [says "p3" "1"]; clock := 2015%Z |} ]).
  - reflexivity.
  - repeat constructor.
  - vm_compute. reflexivity.
Defined.

Lemma refused_send_starts_no_wait_witness :
  askGroupQuestion chat question 180000 refusing = Threw (afterRefusedSend refusing)
  /\ askConfirmation chat roster question refusing = Threw (afterRefusedSend refusing)
  /\ pending (afterRefusedSend refusing) = pending refusing
  /\ outbox (afterRefusedSend refusing) = outbox refusing
  /\ watching (afterRefusedSend refusing) = watching refusing.
Proof.
  apply (refused_send_starts_no_wait chat roster question 180000 refusing).
  reflexivity.
Defined.

Lemma askGroupQuestion_sends_once_witness :
  exists w',
    askGroupQuestion chat question 180000 oneYes
    = Returned (responses (collect chat (delivered ([] ++ pending oneYes)))) w'
    /\ outbox w' = outbox oneYes ++ [(chat, question)]
    /\ pending w' = [] /\ watching w' = false.
Proof.
  apply (askGroupQuestion_sends_once chat question 180000 oneYes []
           {| arrivals := [says "p1" "yes"]; clock := 1001%Z |} []).
  - simpl. discriminate.
  - reflexivity.
  - constructor.
  - vm_compute. reflexivity.
Defined.

Lemma few_respondents_cannot_confirm_witness :
  exists c w',
    askConfirmation chat roster question oneYes = Returned c w'
    /\ length (confirmations c)
       = length (responses (collect chat (delivered ([] ++ pending oneYes))))
    /\ confirmed c = false.
Proof.
  apply (few_respondents_cannot_confirm chat roster question oneYes []
           {| arrivals := [says "p1" "yes"]; clock := 1001%Z |} []).
  - simpl. discriminate.
  - reflexivity.
  - constructor.
  - vm_compute. reflexivity.
  - vm_compute. lia.
Defined.

Lemma silence_confirms_only_empty_roster_witness :
  exists c w',
    askConfirmation chat roster question threeMinutes = Returned c w'
    /\ confirmations c = []
    /\ (confirmed c = true <-> roster = []).
Proof.
  apply (silence_confirms_only_empty_roster chat roster question threeMinutes
           [ {| arrivals := []; clock := 90000%Z |} ]
           {| arrivals := []; clock := 180001%Z |} []).
  - simpl. discriminate.
  - reflexivity.
  - repeat constructor.
  - reflexivity.
  - simpl. lia.
Defined.

End Asking.

(** ** The choice by the first valid number *)

Section FirstChoice.

Import Planner Choices Spec Notions.

Context {A : Type}.

Implicit Types (replies : list (jsstring * jsstring)) (array : list A).

Lemma filter_between (n : Z) (texts : list jsstring) :
  filter (fun c => Is_true (between 1 n c)) ((fun c => parseInt (trim c)) <$> texts)
  = Some <$> omap (validChoice n) texts.
Proof.
  induction texts as [|c cs IH]; [done|].
  rewrite fmap_cons, filter_cons. simpl. rewrite IH. unfold validChoice.
  destruct (parseInt (trim c)) as [v|]; simpl; [|done].
  by destruct ((1 <=? v)%Z && (v <=? n)%Z).
Qed.

Lemma firstValid_head (n : Z) replies :
  firstValid n replies = head (omap (validChoice n) (values replies)).
Proof.
  unfold values. induction replies as [|[person reply] rest IH]; simpl; [done|].
  by destruct (validChoice n reply).
Qed.

Lemma firstValid_range (n : Z) replies v :
  firstValid n replies = Some v -> (1 <= v <= n)%Z.
Proof.
  induction replies as [|[person reply] rest IH]; simpl; [done|].
  destruct (validChoice n reply) as [v'|] eqn:E; [|done].
  intros [= <-]. unfold validChoice in E.
  destruct (parseInt (trim reply)) as [u|]; [|done].
  destruct ((1 <=? u)%Z && (u <=? n)%Z) eqn:Hr; [|done].
  injection E as <-. apply andb_true_iff in Hr as [?%Z.leb_le ?%Z.leb_le]. done.
Qed.

(** The index that the first valid number gives, 0 without one. *)
Lemma first_index (n : Z) (texts : list jsstring) :
  let choices :=
    filter (fun c => Is_true (between 1 n c)) ((fun c => parseInt (trim c)) <$> texts) in
  (if (0 <? length choices)%nat then jsSub (firstNumber choices) (Some 1%Z) else Some 0%Z)
  = Some (match head (omap (validChoice n) texts) with
          | Some v => (v - 1)%Z
          | None => 0%Z
          end).
Proof.
  intros choices. unfold choices. rewrite filter_between.
  destruct (omap (validChoice n) texts) as [|v vs]; done.
Qed.

Lemma chosenLocIndex_firstValid array replies :
  chosenLocIndex array replies
  = Some (match firstValid (Z.of_nat (length array)) replies with
          | Some v => (v - 1)%Z
          | None => 0%Z
          end).
Proof.
  unfold chosenLocIndex, locChoices. rewrite first_index. by rewrite firstValid_head.
Qed.

(** X7. The location is the one under the first reply that is a number
    from 1 to the length of the list, the first of the list without such
    a reply; it is defined exactly when the list is not empty.  The
    restaurant is chosen the same way. *)
Theorem chosenLocation_first_valid array replies :
  chosenLocation array replies
  = array !! match firstValid (Z.of_nat (length array)) replies with
             | Some v => Z.to_nat (v - 1)
             | None => 0%nat
             end
  /\ (is_Some (chosenLocation array replies) <-> array <> [])
  /\ chosenRestaurant array replies = chosenLocation array replies.
Proof.
  assert (chosenLocation array replies
          = array !! match firstValid (Z.of_nat (length array)) replies with
                     | Some v => Z.to_nat (v - 1)
                     | None => 0%nat
                     end) as E.
  { unfold chosenLocation. rewrite chosenLocIndex_firstValid. unfold jsIndex.
    destruct (firstValid _ replies) as [v|] eqn:Hv; [|done].
    apply firstValid_range in Hv.
    destruct (Z.leb_spec 0 (v - 1)); [done | lia]. }
  split; [exact E|]. split; [|done].
  rewrite E, lookup_lt_is_Some.
  destruct (firstValid _ replies) as [v|] eqn:Hv.
  - apply firstValid_range in Hv. split; [intros H -> ; simpl in *; lia|].
    intros _. lia.
  - destruct array; simpl; split; try done; lia.
Qed.

(** X8. The slot of the holiday planner is the one under the first
    reply that is a number from 1 to 3, the first slot without such a
    reply; it is defined exactly when that many slots exist, so with
    fewer than three slots a valid reply can leave it undefined. *)
Theorem chosenSlot_first_valid array replies :
  let i := match firstValid 3 replies with
           | Some v => Z.to_nat (v - 1)
           | None => 0%nat
           end in
  chosenSlot array replies = array !! i
  /\ (i < 3)%nat
  /\ (is_Some (chosenSlot array replies) <-> (i < length array)%nat).
Proof.
  intros i.
  assert (chosenSlot array replies = array !! i) as E.
  { unfold chosenSlot, chosenSlotIndex. rewrite first_index, <- firstValid_head.
    unfold jsIndex, i.
    destruct (firstValid 3 replies) as [v|] eqn:Hv; [|done].
    apply firstValid_range in Hv.
    destruct (Z.leb_spec 0 (v - 1)); [done | lia]. }
  split; [exact E|]. split.
  - unfold i. destruct (firstValid 3 replies) as [v|] eqn:Hv; [|lia].
    apply firstValid_range in Hv. lia.
  - rewrite E. apply lookup_lt_is_Some.
Qed.

End FirstChoice.

(** ** The budget and the dates *)

Section BudgetAndDates.

Import Planner Choices Spec Notions.

Lemma toLowerCase_word (mid word : jsstring) :
  Forall (fun l => 97 <= l <= 122) word ->
  toLowerCase mid = word <-> Forall2 (fun c l => c = l \/ c = l - 32) mid word.
Proof.
  intros Hword. revert mid. induction Hword as [|l word Hl _ IH]; intros mid.
  - split.
    + intros ->%fmap_nil_inv. constructor.
    + by intros ->%Forall2_nil_inv_r.
  - split.
    + intros H. unfold toLowerCase in H.
      apply fmap_cons_inv in H as (c & mid' & Hc & Hrest & ->).
      symmetry in Hc. rewrite toLowerCaseUnit_eq in Hc by done.
      constructor; [done|]. apply IH. done.
    + intros (c & mid' & Hc & Hrest & ->)%Forall2_cons_inv_r.
      unfold toLowerCase. rewrite fmap_cons. f_equal.
      * by apply toLowerCaseUnit_eq.
      * by apply IH.
Qed.

Lemma includes_word (word reply : jsstring) :
  Forall (fun l => 97 <= l <= 122) word ->
  includes word (toLowerCase reply) = true <-> containsWord word reply.
Proof.
  intros Hword. rewrite includes_spec. unfold containsWord, toLowerCase. split.
  - intros (pre & post & H).
    apply fmap_app_inv in H as (r1 & r2 & -> & H & ->). symmetry in H.
    apply fmap_app_inv in H as (mid & r3 & Hmid & -> & ->).
    exists r1, mid, r3. split; [done|]. by apply toLowerCase_word.
  - intros (pre & mid & post & -> & Hmid).
    apply toLowerCase_word in Hmid; [|done].
    exists (toLowerCaseUnit <$> pre), (toLowerCaseUnit <$> post).
    rewrite !fmap_app. by rewrite <- Hmid.
Qed.

Lemma existsb_Exists {B} (f : B -> bool) (P : B -> Prop) (l : list B) :
  (forall x, f x = true <-> P x) -> existsb f l = true <-> Exists P l.
Proof.
  intros Hf. induction l as [|x l IH]; simpl.
  - split; [done | by intros ?%Exists_nil].
  - rewrite orb_true_iff, Exists_cons, Hf, IH. done.
Qed.

Lemma says_high (budgetVals : list jsstring) :
  existsb (fun b => includes (js "high") (toLowerCase b)) budgetVals = true
  <-> Exists (containsWord (js "high")) budgetVals.
Proof.
  apply existsb_Exists. intros b. apply includes_word.
  repeat constructor; simpl; lia.
Qed.

Lemma says_low (budgetVals : list jsstring) :
  existsb (fun b => includes (js "low") (toLowerCase b)) budgetVals = true
  <-> Exists (containsWord (js "low")) budgetVals.
Proof.
  apply existsb_Exists. intros b. apply includes_word.
  repeat constructor; simpl; lia.
Qed.

(** X9. The budget is high exactly when some reply holds the word high,
    in any case and anywhere in the reply; it is low exactly when none
    holds high and some reply holds low; it is medium otherwise.  A
    single reply with high outweighs any number with low. *)
Theorem budget_by_keywords (budgetVals : list jsstring) :
  (budget budgetVals = high <-> Exists (containsWord (js "high")) budgetVals)
  /\ (budget budgetVals = low
      <-> ~ Exists (containsWord (js "high")) budgetVals
          /\ Exists (containsWord (js "low")) budgetVals)
  /\ (budget budgetVals = medium
      <-> ~ Exists (containsWord (js "high")) budgetVals
          /\ ~ Exists (containsWord (js "low")) budgetVals).
Proof.
  rewrite <- says_high, <- says_low. unfold budget.
  destruct (existsb _ budgetVals); [|destruct (existsb _ budgetVals)];
    repeat split; intros; try done; try tauto; intuition congruence.
Qed.

(** X10. The budget does not depend on the order of the replies. *)
Theorem budget_any_order (budgetVals budgetVals' : list jsstring) :
  budgetVals ≡ₚ budgetVals' -> budget budgetVals = budget budgetVals'.
Proof.
  intros Hp.
  assert (forall f : jsstring -> bool, existsb f budgetVals = existsb f budgetVals') as E.
  { intros f. apply eq_true_iff_eq.
    rewrite !(existsb_Exists f (fun x => f x = true)) by done.
    by rewrite Hp. }
  unfold budget. by rewrite !E.
Qed.

Lemma budget_any_order_witness :
  budget [js "LOW please"; js "High"] = budget [js "High"; js "LOW please"].
Proof.
  apply (budget_any_order [js "LOW please"; js "High"] [js "High"; js "LOW please"]).
  apply perm_swap.
Defined.



End BudgetAndDates.

(** ** The text handed to the script *)

Section Escaping.

Import Client Notions.

Implicit Types (text a b : jsstring) (c : N).

Lemma replaceAll_app c by_ a b :
  replaceAll c by_ (a ++ b) = replaceAll c by_ a ++ replaceAll c by_ b.
Proof. unfold replaceAll. apply bind_app. Qed.

Lemma escapedText_app a b : escapedText (a ++ b) = escapedText a ++ escapedText b.
Proof. unfold escapedText. by rewrite !replaceAll_app. Qed.

Lemma escapedText_unit c : escapedText [c] = escapedUnit c.
Proof.
  unfold escapedText, escapedUnit, replaceAll. simpl.
  destruct (N.eqb_spec c 92) as [-> | H92]; [done|]. simpl.
  destruct (N.eqb_spec c 34) as [-> | H34]; [done|]. simpl.
  destruct (N.eqb_spec c 10) as [-> | H10]; done.
Qed.

Lemma escapedText_cons c text : escapedText (c :: text) = escapedUnit c ++ escapedText text.
Proof. by rewrite <- escapedText_unit, <- escapedText_app. Qed.

(** X12. The three replacements amount to one pass that rewrites each
    character on its own: what an earlier replacement wrote is not
    rewritten by a later one.  The escaped text holds no line feed, and
    escaping goes through concatenation. *)
Theorem escapedText_one_pass text :
  escapedText text = text ≫= escapedUnit
  /\ (10 ∉ escapedText text)
  /\ forall a b, escapedText (a ++ b) = escapedText a ++ escapedText b.
Proof.
  split; [|split; [|apply escapedText_app]].
  - induction text as [|c text IH]; [done|].
    by rewrite escapedText_cons, bind_cons, IH.
  - induction text as [|c text IH]; [apply not_elem_of_nil|].
    rewrite escapedText_cons, elem_of_app. intros [Hc | Ht]; [|done].
    unfold escapedUnit in Hc.
    destruct (N.eqb_spec c 92); [|destruct (N.eqb_spec c 34); [|destruct (N.eqb_spec c 10)]];
      rewrite ?elem_of_cons, elem_of_nil in Hc; lia.
Qed.

(** X13. The text can be read back from the escaped text, so two
    different texts are never escaped to the same one. *)
Theorem escapedText_read_back text :
  unescaped (escapedText text) = text
  /\ forall text', escapedText text = escapedText text' -> text = text'.
Proof.
  assert (forall t, unescaped (escapedText t) = t) as Hback.
  { intros t. induction t as [|c t IH]; [done|].
    rewrite escapedText_cons. unfold escapedUnit.
    destruct (N.eqb_spec c 92) as [-> | H92]; [simpl; by rewrite IH|].
    destruct (N.eqb_spec c 34) as [-> | H34]; [simpl; by rewrite IH|].
    destruct (N.eqb_spec c 10) as [-> | H10]; [simpl; by rewrite IH|].
    simpl. destruct (N.eqb_spec c 92); [done|]. by rewrite IH. }
  split; [apply Hback|].
  intros text' H. by rewrite <- (Hback text), H, Hback.
Qed.

Lemma escapedText_read_back_witness :
  unescaped (escapedText [72; 105; 10; 34; 92]) = [72; 105; 10; 34; 92]
  /\ [72; 105; 10; 34; 92] = [72; 105; 10; 34; 92].
Proof.
  split.
  - apply (proj1 (escapedText_read_back [72; 105; 10; 34; 92])).
  - apply (proj2 (escapedText_read_back [72; 105; 10; 34; 92])). reflexivity.
Defined.

Lemma startsWith_app needle rest : startsWith needle (needle ++ rest) = true.
Proof. apply startsWith_spec. by exists rest. Qed.

(** X14. For a chat id that starts with 'chat' the script is given the
    id without that prefix, and only the prefix is taken off, also when
    'chat' occurs again in the id; the message goes out escaped. *)
Theorem group_delivery_strips_prefix (rest message : jsstring) :
  numericId (js "chat" ++ rest) = rest
  /\ delivery (js "chat" ++ rest) message = ViaAppleScript rest (escapedText message).
Proof.
  assert (numericId (js "chat" ++ rest) = rest) as E.
  { unfold numericId. destruct rest; reflexivity. }
  split; [exact E|]. unfold delivery. by rewrite startsWith_app, E.
Qed.

End Escaping.

(** ** Requests and reads of the connection manager *)

Section ManagerFacts.

Import CalendarOAuth OAuthReads Spec Notions Samples MoreSamples.

Implicit Types (m : Manager) (req : Request).

(** X15. A request that does not complete an authorization, be it a
    page view, a callback without code or without participant, or a
    callback whose code is not accepted, leaves the manager as it is. *)
Theorem request_without_grant_changes_nothing m req :
  granted req = None -> serve m req = m.
Proof.
  unfold serve. destruct req as [|email|code state [tokens|] at_ sent|]; simpl; try done.
  - by destruct (truthy email).
  - destruct (truthy code); [|done]. by destruct (truthy state).
  - intros _. destruct (truthy code); [|done]. by destruct (truthy state).
Qed.

Lemma request_without_grant_changes_nothing_witness : serve linked rejected = linked.
Proof. apply (request_without_grant_changes_nothing linked rejected). reflexivity. Defined.

Lemma getAuthClientForUser_record conns participant tokens at_ m :
  connections m = recordConnection participant tokens at_ conns ->
  getAuthClientForUser m participant = Some tokens.
Proof.
  intros E. unfold getAuthClientForUser, recordConnection in *.
  rewrite E, lookup_insert_eq. by destruct tokens.
Qed.

(** X16. When the notice to the group cannot be sent, the callback
    answers with the error page, yet the connection is recorded: the
    credentials are there for the participant, and no notice is added. *)
Theorem failed_notice_still_connects m g chat c code s state tokens at_ :
  groupChatId m = Some (g :: chat) ->
  let req := GetCallback (Some (c :: code)) (Some (s :: state)) (Some tokens) at_ false in
  snd (handle m req) = ErrorPage (js "Failed to connect calendar")
  /\ getAuthClientForUser (serve m req) (s :: state) = Some tokens
  /\ notices (serve m req) = notices m.
Proof.
  intros Hchat req. unfold serve, req. simpl. rewrite Hchat. simpl.
  split; [done|]. split; [|done].
  by apply (getAuthClientForUser_record (connections m) _ _ at_).
Qed.

Lemma failed_notice_still_connects_witness :
  snd (handle linked untold) = ErrorPage (js "Failed to connect calendar")
  /\ getAuthClientForUser (serve linked untold) (js "a") = Some credential
  /\ notices (serve linked untold) = notices linked.
Proof.
  apply (failed_notice_still_connects linked 99 (js "hat85598446218630183")
           52 (js "/0Ab") 97 [] credential 1500).
  reflexivity.
Defined.

(** X17. [getAuthClientForUser] answers null exactly for the
    participants who are not connected; after a completed authorization
    it answers the credentials of that authorization for the
    participant, whatever was there before, and what it answered for
    the others it still answers. *)
Theorem auth_client_is_latest_credential m c code s state tokens at_ sent :
  let req := GetCallback (Some (c :: code)) (Some (s :: state)) (Some tokens) at_ sent in
  (forall participant,
      getAuthClientForUser m participant = None <-> participant ∉ connectedSet m)
  /\ getAuthClientForUser (serve m req) (s :: state) = Some tokens
  /\ (forall other,
         other <> s :: state ->
         getAuthClientForUser (serve m req) other = getAuthClientForUser m other).
Proof.
  intros req. split; [|split].
  - intros participant. unfold getAuthClientForUser, connectedSet.
    rewrite not_elem_of_dom. by destruct (connections m !! participant).
  - apply (getAuthClientForUser_record (connections m) _ _ at_).
    by rewrite serve_connections.
  - intros other Hother. unfold getAuthClientForUser.
    rewrite serve_connections. simpl. unfold recordConnection.
    by rewrite lookup_insert_ne.
Qed.

Lemma auth_client_is_latest_credential_witness :
  getAuthClientForUser (serve linked (authorizes "a" 1500)) (js "b")
  = getAuthClientForUser linked (js "b").
Proof.
  apply (proj2 (proj2 (auth_client_is_latest_credential linked 52 (js "/0Ab") 97 []
                         credential 1500 true))).
  discriminate.
Defined.

Lemma filed_step m op : filed m -> filed (step m op).
Proof.
  intros Hm. destruct op; simpl; try done.
  intros participant connection. rewrite serve_connections.
  destruct (granted req) as [who|] eqn:Hg; [|apply Hm].
  destruct req as [| |code state [tokens|] at_ sent|]; try apply Hm.
  unfold recordConnection. rewrite lookup_insert.
  case_decide as Hwho; [|apply Hm]. by intros [= <-].
Qed.

Lemma filed_reachable m : reachable m -> filed m.
Proof.
  intros [ops ->].
  assert (forall m0, filed m0 -> filed (foldl step m0 ops)) as H.
  { induction ops as [|op ops IH]; intros m0 H0; simpl; [done|].
    apply IH. by apply filed_step. }
  apply H. intros participant connection. unfold newManager. simpl.
  by rewrite lookup_empty.
Qed.

(** X18. In every manager that the operations can produce each record
    is filed under its own email, and the status page lists the
    connected participants, each once. *)
Theorem status_lists_connected_once m :
  reachable m ->
  (forall participant connection,
      connections m !! participant = Some connection -> email connection = participant)
  /\ exists emails,
       handle m GetStatus = (m, StatusJson emails)
       /\ NoDup emails
       /\ (forall participant, participant ∈ emails <-> participant ∈ connectedSet m)
       /\ length emails = size (connectedSet m).
Proof.
  intros Hfiled%filed_reachable. split; [exact Hfiled|].
  eexists. split; [reflexivity|].
  assert ((fun kv : jsstring * CalendarConnection => email kv.2)
            <$> map_to_list (connections m)
          = (map_to_list (connections m)).*1) as ->.
  { apply list_fmap_ext. intros i [k connection] Hin. simpl.
    apply Hfiled. apply elem_of_map_to_list. by eapply list_elem_of_lookup_2. }
  split; [apply NoDup_fst_map_to_list|]. split.
  - intros participant. unfold connectedSet.
    rewrite elem_of_dom, list_elem_of_fmap. split.
    + intros ([k connection] & -> & Hin%elem_of_map_to_list). by exists connection.
    + intros [connection Hc]. exists (participant, connection).
      split; [done|]. by apply elem_of_map_to_list.
  - unfold connectedSet. by rewrite length_fmap, length_map_to_list, size_dom.
Qed.

Lemma status_lists_connected_once_witness :
  (forall participant connection,
      connections (serve linked untold) !! participant = Some connection ->
      email connection = participant)
  /\ exists emails,
       handle (serve linked untold) GetStatus = (serve linked untold, StatusJson emails)
       /\ NoDup emails
       /\ (forall participant,
             participant ∈ emails <-> participant ∈ connectedSet (serve linked untold))
       /\ length emails = size (connectedSet (serve linked untold)).
Proof.
  apply (status_lists_connected_once (serve linked untold)).
  exists [SendConnectionLinkToGroup chat; Serve untold]. reflexivity.
Defined.

(** X19. The count in the notice to the group is the number of
    distinct participants connected, the new one included: it goes up
    by one for a participant who was not connected and stays the same
    for one who authorizes again. *)
Theorem notice_counts_distinct_participants m g chat c code s state tokens at_ :
  groupChatId m = Some (g :: chat) ->
  let req := GetCallback (Some (c :: code)) (Some (s :: state)) (Some tokens) at_ true in
  notices (serve m req)
  = notices m ++ [ {| notice_chat := g :: chat; notice_email := s :: state;
                      notice_count := size ({[s :: state]} ∪ connectedSet m) |} ]
  /\ size ({[s :: state]} ∪ connectedSet m)
     = (if decide (s :: state ∈ connectedSet m) then size (connectedSet m)
        else S (size (connectedSet m))).
Proof.
  intros Hchat req. split.
  - unfold serve, req. simpl. rewrite Hchat. simpl. do 3 f_equal.
    unfold connectedSet, recordConnection. by rewrite <- size_dom, dom_insert_L.
  - case_decide as Hin.
    + f_equal. apply subseteq_union_1_L. by apply singleton_subseteq_l.
    + rewrite size_union, size_singleton; [done|].
      by apply disjoint_singleton_l.
Qed.

Lemma notice_counts_distinct_participants_witness :
  notices (serve linked (authorizes "a" 1500))
  = notices linked ++ [ {| notice_chat := chat; notice_email := js "a";
                           notice_count := size ({[js "a"]} ∪ connectedSet linked) |} ]
  /\ size ({[js "a"]} ∪ connectedSet linked)
     = (if decide (js "a" ∈ connectedSet linked) then size (connectedSet linked)
        else S (size (connectedSet linked))).
Proof.
  apply (notice_counts_distinct_participants linked 99 (js "hat85598446218630183")
           52 (js "/0Ab") 97 [] credential 1500).
  reflexivity.
Defined.

End ManagerFacts.

(** ** More on the wait for connections *)

Section WaitFacts.

Import CalendarOAuth OAuthReads Spec Notions Samples MoreSamples DoubleNotions.

(** X20. Nothing is required of an empty roster when the threshold is
    a finite Number, and of any roster when the threshold is zero or
    below: [waitForConnections] returns at once, before any request is
    served, with the connections as they are.  A threshold that is
    [NaN] or infinite is left out for the empty roster: its product with
    zero is [NaN], which no count reaches.  The roster has fewer than
    2^32 entries, as every array has. *)
Theorem waitForConnections_nothing_required roster timeout minThreshold s :
  (Z.of_nat (length roster) < 2 ^ 32)%Z ->
  (roster = [] /\ JsDouble.isFinite minThreshold = true)
  \/ (roster <> [] /\ notPositive minThreshold = true) ->
  waitForConnections roster timeout minThreshold s
  = Returned (connections (manager s))
             {| manager := step (manager s) (WaitForConnectionsStarts roster);
                time := time s; upcoming := upcoming s |}.
Proof.
  intros Hlen H. unfold waitForConnections.
  rewrite pollConnections_settled; [done|].
  unfold settled. apply orb_true_iff. left. unfold quorum. apply jsGe_count.
  - apply ofNat_count.
    pose proof (connectedOfRoster_le roster
                  (connectedSet (step (manager s) (WaitForConnectionsStarts roster)))).
    lia.
  - apply Math_ceil_notPositive. destruct H as [[-> Hfin] | [Hne Hneg]].
    + apply notPositive_cases. by destruct minThreshold.
    + destruct (ofNat_positive (length roster)) as (m & e & ->).
      * destruct roster; [done|]. simpl length in *. lia.
      * by apply jsMul_notPositive.
Qed.

Lemma waitForConnections_nothing_required_witness :
  waitForConnections abcd 600000 (JsDouble.literal (-5) 10) outsiderFirst
  = Returned (connections (manager outsiderFirst))
             {| manager := step (manager outsiderFirst) (WaitForConnectionsStarts abcd);
                time := time outsiderFirst; upcoming := upcoming outsiderFirst |}.
Proof.
  apply (waitForConnections_nothing_required abcd 600000 (JsDouble.literal (-5) 10)
           outsiderFirst).
  - vm_compute. reflexivity.
  - right. split; [discriminate | vm_compute; reflexivity].
Defined.

Lemma serve_expectedParticipants m req :
  expectedParticipants (serve m req) = expectedParticipants m.
Proof.
  unfold serve. destruct req as [|email|code state [tokens|] at_ sent|]; simpl; try done.
  - by destruct (truthy email).
  - destruct (truthy code); [|done]. destruct (truthy state); [|done].
    destruct (truthy (groupChatId m)); simpl; [by destruct sent | done].
  - destruct (truthy code); [|done]. by destruct (truthy state).
Qed.

Lemma after_expectedParticipants m (rounds : list CalendarOAuth.Round) :
  expectedParticipants (after m rounds) = expectedParticipants m.
Proof.
  revert m. induction rounds as [|r rounds IH]; intros m; simpl; [done|].
  rewrite IH. generalize (requests r). intros reqs. revert m.
  induction reqs as [|req reqs IHr]; intros m; simpl; [done|].
  by rewrite IHr, serve_expectedParticipants.
Qed.

Lemma after_connectedSet m (rounds : list CalendarOAuth.Round) :
  connectedSet m ⊆ connectedSet (after m rounds).
Proof.
  revert m. induction rounds as [|r rounds IH]; intros m; simpl; [done|].
  etrans; [|apply IH]. rewrite serve_all_connectedSet. apply union_subseteq_r.
Qed.

(** X21. When [waitForConnections] returns, every participant who was
    connected at the call is in the returned map, and the roster it was
    given is what the landing page offers from then on. *)
Theorem waitForConnections_keeps_and_publishes roster timeout minThreshold s pre post :
  let minRequired :=
    JsDouble.Math_ceil (JsDouble.jsMul (JsDouble.ofNat (length roster)) minThreshold) in
  let m0 := step (manager s) (WaitForConnectionsStarts roster) in
  upcoming s = pre ++ post ->
  (forall i, (i < length pre)%nat ->
             settled roster minRequired timeout (time s)
                     (after m0 (take i pre)) (clockAfter (time s) (take i pre)) = false) ->
  settled roster minRequired timeout (time s) (after m0 pre) (clockAfter (time s) pre)
  = true ->
  exists conns s',
    waitForConnections roster timeout minThreshold s = Returned conns s'
    /\ connectedSet (manager s) ⊆ dom conns
    /\ conns = connections (manager s')
    /\ handle (manager s') GetLanding = (manager s', LandingPage roster).
Proof.
  intros minRequired m0 Hup Hbefore Hthen. eexists _, _. split.
  - unfold waitForConnections. rewrite Hup. by apply pollConnections_first_settled.
  - simpl. split; [|split; [done|]].
    + apply (after_connectedSet m0 pre).
    + by rewrite after_expectedParticipants.
Qed.

Lemma waitForConnections_keeps_and_publishes_witness :
  exists conns s',
    waitForConnections abcd 600000 half twoConnected = Returned conns s'
    /\ connectedSet (manager twoConnected) ⊆ dom conns
    /\ conns = connections (manager s')
    /\ handle (manager s') GetLanding = (manager s', LandingPage abcd).
Proof.
  apply (waitForConnections_keeps_and_publishes abcd 600000 half twoConnected
           [] (upcoming twoConnected)).
  - reflexivity.
  - intros i Hi. simpl in Hi. lia.
  - vm_compute. reflexivity.
Defined.

End WaitFacts.

(** ** The free slots *)

Section FreeSlots.

Import CalendarAgent SlotNotions.

Implicit Types (b : Busy) (periods sorted : list Busy) (slots : list CalendarSlot).






Lemma freeSlotsLoop_done fuel sorted durationMs endTime currentTime slots :
  (endTime <= currentTime)%Z ->
  freeSlotsLoop fuel sorted durationMs endTime currentTime slots = Some slots.
Proof.
  intros H. destruct fuel; simpl;
    destruct (Z.ltb_spec currentTime endTime); (done || lia).
Qed.

(** One round of the loop, when it is entered. *)
Lemma freeSlotsLoop_round fuel sorted durationMs endTime currentTime slots :
  (currentTime < endTime)%Z ->
  freeSlotsLoop (S fuel) sorted durationMs endTime currentTime slots
  = let nextBusy := find (fun busy => (currentTime <? start busy)%Z) sorted in
    freeSlotsLoop fuel sorted durationMs endTime
      match nextBusy with Some nextBusy => end_ nextBusy | None => endTime end
      (if (durationMs <=? match nextBusy with
                          | Some nextBusy => start nextBusy
                          | None => endTime
                          end - currentTime)%Z
       then slots ++ [ {| slotStart := currentTime;
                          slotEnd := (currentTime + durationMs)%Z |} ]
       else slots).
Proof.
  intros H. simpl. destruct (Z.ltb_spec currentTime endTime); [done | lia].
Qed.











(** X24. Without any busy period the answer is one slot, at the start
    of the range, when the range is not empty and has room for the
    duration, and no slot otherwise: a free range is never cut into
    several slots. *)
Theorem findCommonFreeSlots_free_range calendars startDate endDate duration fuel :
  allBusyPeriods calendars = [] ->
  findCommonFreeSlots (S fuel) calendars startDate endDate duration
  = Some (if (startDate <? endDate)%Z
             && (duration * 60 * 60 * 1000 <=? endDate - startDate)%Z
          then [ {| slotStart := startDate;
                    slotEnd := (startDate + duration * 60 * 60 * 1000)%Z |} ]
          else []).
Proof.
  intros Hnone. unfold findCommonFreeSlots. rewrite Hnone.
  change (sortByStart []) with (@nil Busy).
  destruct (Z.ltb_spec startDate endDate) as [Hlt | Hge].
  - rewrite freeSlotsLoop_round by done. cbv zeta. simpl find. cbv iota.
    rewrite freeSlotsLoop_done by lia. simpl.
    by destruct (duration * 60 * 60 * 1000 <=? endDate - startDate)%Z.
  - by rewrite freeSlotsLoop_done by lia.
Qed.



Lemma findCommonFreeSlots_free_range_witness :
  findCommonFreeSlots 1 freeDay 0 43200000 4
  = Some (if (0 <? 43200000)%Z && (4 * 60 * 60 * 1000 <=? 43200000 - 0)%Z
          then [ {| slotStart := 0; slotEnd := (0 + 4 * 60 * 60 * 1000)%Z |} ]
          else []).
Proof.
  apply (findCommonFreeSlots_free_range freeDay 0 43200000 4 0). reflexivity.
Defined.

End FreeSlots.
